(** * Verification model of the [overloadable] procedural macros

    The crate turns a list of function signatures sharing one name into
    (a) a zero-sized marker type with one [Fn]/[FnMut]/[FnOnce] implementation
    triple per signature ([overloadable!]), or (b) one single-method trait
    plus its implementation on an owner type per signature
    ([overloadable_member!]).

    The model follows [src/lib.rs]:
    - token streams are proc-macro token trees (identifiers, single-character
      punctuation with its spacing, literals, delimited groups), each carrying
      a span;
    - the [syn] parsers used by the crate are modelled on that token model,
      for the subset of Rust syntax the macro inputs use (paths, references,
      tuples, slices and arrays as types; identifier, wildcard, reference
      and tuple patterns; generics, bounds and where clauses).  Parsers
      advance a cursor and keep what they consumed when they fail, as
      [syn]'s [ParseBuffer] does (this matters for [.ok()]);
    - the generated code is a small abstract syntax of the items that the
      [quote!] templates of [gen_fn_decls] and [gen_trait_fn_decls] build,
      one field per interpolated value. *)

From Stdlib Require Import String Ascii List Bool Arith Lia.
From stdpp Require Import base list strings pretty.
Import ListNotations.
Open Scope string_scope.
#[local] Set Warnings "-register-all".

(* ------------------------------------------------------------------ *)
(** ** Token trees *)

Definition span := nat.

(** [Span::call_site()], the span [quote!] gives to template tokens. *)
Definition call_site : span := 0.

Inductive Delimiter := Parenthesis | Bracket | Brace | NoDelim.
Inductive Spacing := Alone | Joint.

Inductive TokenTree :=
| TIdent (sp : span) (s : string)
| TPunct (sp : span) (c : ascii) (sg : Spacing)
| TLit (sp : span) (s : string)
| TGroup (sp : span) (d : Delimiter) (ts : list TokenTree).

Definition TokenStream := list TokenTree.

Definition tt_span (t : TokenTree) : span :=
  match t with
  | TIdent sp _ | TPunct sp _ _ | TLit sp _ | TGroup sp _ _ => sp
  end.

Fixpoint tt_size (t : TokenTree) : nat :=
  match t with
  | TGroup _ _ ts => S (fold_right (fun t n => tt_size t + n) 0 ts)
  | _ => 1
  end.

Definition ts_size (ts : TokenStream) : nat :=
  fold_right (fun t n => tt_size t + n) 0 ts.

(* ------------------------------------------------------------------ *)
(** ** The parse cursor ([syn::parse::ParseStream]) *)

Record ParseError := mkParseError { pe_span : option span; pe_msg : string }.

(** A parse either succeeds with a value and the remaining tokens, or fails
    with an error and the tokens left where the failure happened. *)
Inductive PResult (A : Type) :=
| POk (a : A) (rest : TokenStream)
| PErr (e : ParseError) (rest : TokenStream).
Arguments POk {A}. Arguments PErr {A}.

Definition Parser (A : Type) := TokenStream -> PResult A.

Definition pret {A} (a : A) : Parser A := fun ts => POk a ts.
Definition pbind {A B} (p : Parser A) (f : A -> Parser B) : Parser B :=
  fun ts => match p ts with POk a r => f a r | PErr e r => PErr e r end.

Notation "x <-- p ;; q" := (pbind p (fun x => q))
  (at level 100, p at next level, right associativity).

Definition head_span (ts : TokenStream) : option span :=
  match ts with t :: _ => Some (tt_span t) | [] => None end.

Definition err_at (ts : TokenStream) (msg : string) : ParseError :=
  mkParseError (head_span ts)
    (match ts with [] => "unexpected end of input, " ++ msg | _ => msg end).

Definition pfail {A} (msg : string) : Parser A :=
  fun ts => PErr (err_at ts msg) ts.

(** [p.ok()]: a failure becomes [None], keeping what [p] consumed. *)
Definition pok {A} (p : Parser A) : Parser (option A) :=
  fun ts => match p ts with POk a r => POk (Some a) r | PErr _ r => POk None r end.

Definition is_empty (ts : TokenStream) : bool :=
  match ts with [] => true | _ => false end.

(* ------------------------------------------------------------------ *)
(** ** Keywords, identifiers, punctuation, lifetimes *)

Definition keywords : list string :=
  ["abstract"; "as"; "async"; "await"; "become"; "box"; "break"; "const";
   "continue"; "crate"; "do"; "dyn"; "else"; "enum"; "extern"; "false";
   "final"; "fn"; "for"; "if"; "impl"; "in"; "let"; "loop"; "macro";
   "match"; "mod"; "move"; "mut"; "override"; "priv"; "pub"; "ref";
   "return"; "Self"; "self"; "static"; "struct"; "super"; "trait"; "true";
   "try"; "type"; "typeof"; "unsafe"; "unsized"; "use"; "virtual"; "where";
   "while"; "yield"].

Definition is_keyword (s : string) : bool := existsb (String.eqb s) keywords.

(** [Ident::peek] / [Ident::parse]: an identifier that is no keyword and
    not [_]. *)
Definition accept_as_ident (s : string) : bool :=
  negb (is_keyword s) && negb (String.eqb s "_").

Record Ident := mkIdent { id_span : span; id_name : string }.

Definition peek_ident (ts : TokenStream) : bool :=
  match ts with TIdent _ s :: _ => accept_as_ident s | _ => false end.

(** [Token![kw]] for a keyword (also [_], [self], [Self]). *)
Definition peek_kw (k : string) (ts : TokenStream) : bool :=
  match ts with TIdent _ s :: _ => String.eqb s k | _ => false end.

Fixpoint peek_chars (cs : list ascii) (ts : TokenStream) : bool :=
  match cs, ts with
  | [], _ => true
  | [c], TPunct _ c' _ :: _ => Ascii.eqb c c'
  | c :: cs', TPunct _ c' Joint :: ts' => Ascii.eqb c c' && peek_chars cs' ts'
  | _, _ => false
  end.

(** [Token![p]::peek] for punctuation [p]: every character but the last
    must be joint to the next one. *)
Definition peek_punct (p : string) (ts : TokenStream) : bool :=
  peek_chars (list_ascii_of_string p) ts.

Definition peek_lifetime (ts : TokenStream) : bool :=
  match ts with
  | TPunct _ c Joint :: TIdent _ _ :: _ => Ascii.eqb c "'"%char
  | _ => false
  end.

Definition peek_group (d : Delimiter) (ts : TokenStream) : bool :=
  match ts with
  | TGroup _ d' _ :: _ =>
      match d, d' with
      | Parenthesis, Parenthesis | Bracket, Bracket | Brace, Brace
      | NoDelim, NoDelim => true
      | _, _ => false
      end
  | _ => false
  end.

Definition parse_punct (p : string) : Parser span := fun ts =>
  match ts with
  | t :: _ =>
      if peek_punct p ts then POk (tt_span t) (skipn (String.length p) ts)
      else PErr (err_at ts ("expected `" ++ p ++ "`")) ts
  | [] => PErr (err_at ts ("expected `" ++ p ++ "`")) ts
  end.

Definition parse_kw (k : string) : Parser span := fun ts =>
  match ts with
  | TIdent sp s :: r => if String.eqb s k then POk sp r
                        else PErr (err_at ts ("expected `" ++ k ++ "`")) ts
  | _ => PErr (err_at ts ("expected `" ++ k ++ "`")) ts
  end.

(** [Option<Token![..]>]: parsed only when it is next. *)
Definition parse_opt_punct (p : string) : Parser (option span) := fun ts =>
  if peek_punct p ts then (x <-- parse_punct p ;; pret (Some x)) ts
  else POk None ts.
Definition parse_opt_kw (k : string) : Parser (option span) := fun ts =>
  if peek_kw k ts then (x <-- parse_kw k ;; pret (Some x)) ts
  else POk None ts.

(** [Ident::parse]. *)
Definition parse_ident : Parser Ident := fun ts =>
  match ts with
  | TIdent sp s :: r =>
      if accept_as_ident s then POk (mkIdent sp s) r
      else PErr (err_at ts ("expected identifier, found keyword `" ++ s ++ "`")) ts
  | _ => PErr (err_at ts "expected identifier") ts
  end.

(** [Ident::parse_any]. *)
Definition parse_ident_any : Parser Ident := fun ts =>
  match ts with
  | TIdent sp s :: r => POk (mkIdent sp s) r
  | _ => PErr (err_at ts "expected identifier") ts
  end.

Record Lifetime := mkLifetime { lt_span : span; lt_name : string }.

Definition parse_lifetime : Parser Lifetime := fun ts =>
  match ts with
  | TPunct sp c Joint :: TIdent _ s :: r =>
      if Ascii.eqb c "'"%char then POk (mkLifetime sp s) r
      else PErr (err_at ts "expected lifetime") ts
  | _ => PErr (err_at ts "expected lifetime") ts
  end.

(** [parenthesized!] / [bracketed!] / [braced!]: the group's contents are
    parsed by [p].  [syn] reports contents left over by [p] as an
    "unexpected token" error when the whole parse finishes; the model raises
    that error when the group is closed, so a parse succeeds in the model
    exactly when it does in [syn]. *)
Definition parse_group {A} (d : Delimiter) (what : string) (p : Parser A)
  : Parser (span * A) := fun ts =>
  match ts with
  | (TGroup sp _ inner as g) :: r =>
      if peek_group d [g] then
        match p inner with
        | POk a [] => POk (sp, a) r
        | POk _ leftover => PErr (err_at leftover "unexpected token") r
        | PErr e _ => PErr e r
        end
      else PErr (err_at ts ("expected " ++ what)) ts
  | _ => PErr (err_at ts ("expected " ++ what)) ts
  end.

(** [Punctuated::parse_terminated_with]: values separated by [sep] until
    the stream is empty; the flag tells whether a separator trails.  [n]
    bounds the number of rounds: each round but the last consumes a
    separator, so the length of the stream plus one suffices. *)
Fixpoint terminated_go {A} (n : nat) (p : Parser A) (sep : string)
  : Parser (list A * bool) := fun ts =>
  match n with
  | O => PErr (err_at ts "recursion limit reached") ts
  | S n' =>
      if is_empty ts then POk ([], false) ts
      else match p ts with
           | PErr e r => PErr e r
           | POk a r =>
               if is_empty r then POk ([a], false) r
               else match parse_punct sep r with
                    | PErr e r' => PErr e r'
                    | POk _ r' =>
                        match terminated_go n' p sep r' with
                        | POk (l, tr) r'' =>
                            POk (a :: l, match l with [] => true | _ => tr end) r''
                        | PErr e r'' => PErr e r''
                        end
                    end
           end
  end.

Definition parse_terminated {A} (p : Parser A) (sep : string)
  : Parser (list A * bool) := fun ts => terminated_go (S (length ts)) p sep ts.

(** [peek2], [peek3]: the same test one or two token trees further; a
    lifetime counts as one token tree ([Cursor::skip]). *)
Definition skip1 (ts : TokenStream) : TokenStream :=
  if peek_lifetime ts then skipn 2 ts else skipn 1 ts.
Definition peek2 (t : TokenStream -> bool) (ts : TokenStream) : bool :=
  t (skip1 ts).
Definition peek3 (t : TokenStream -> bool) (ts : TokenStream) : bool :=
  t (skip1 (skip1 ts)).

(* ------------------------------------------------------------------ *)
(** ** Types ([syn::Type]), paths and generic arguments

    Modelled: paths with angle-bracketed arguments, references, tuples,
    parenthesised types, slices, arrays, [!] and [_].  Not modelled (the
    model rejects them): qualified paths, function pointers, raw pointers,
    trait objects, [impl Trait], parenthesised path arguments ([Fn(A) -> B])
    and associated-type bindings in arguments. *)

Inductive Ty :=
| TyPath (leading_colon : bool) (segs : list PathSegment)
| TyReference (amp : span) (lifetime : option Lifetime)
    (mutability : option span) (elem : Ty)
| TyTuple (paren : span) (elems : list Ty)
| TyParen (paren : span) (elem : Ty)
| TySlice (bracket : span) (elem : Ty)
| TyArray (bracket : span) (elem : Ty) (len : TokenStream)
| TyNever (sp : span)
| TyInfer (sp : span)
with PathSegment :=
| PathSeg (ident : Ident) (args : option (list GenericArgument))
with GenericArgument :=
| GALifetime (l : Lifetime)
| GAType (t : Ty).

Definition parse_opt_lifetime : Parser (option Lifetime) := fun ts =>
  if peek_lifetime ts then (l <-- parse_lifetime ;; pret (Some l)) ts
  else POk None ts.

Fixpoint parse_ty (fuel : nat) (allow_plus : bool) {struct fuel} : Parser Ty :=
  fun ts =>
  match fuel with
  | O => PErr (err_at ts "recursion limit reached") ts
  | S f =>
  match ts with
  | TGroup sp Parenthesis inner :: rest =>
      match inner with
      | [] => POk (TyTuple sp []) rest
      | _ =>
          match parse_ty f true inner with
          | PErr e _ => PErr e rest
          | POk first r1 =>
              if peek_punct "," r1 then
                match (_c <-- parse_punct "," ;;
                       parse_terminated (parse_ty f true) ",") r1 with
                | POk (more, _) [] => POk (TyTuple sp (first :: more)) rest
                | POk _ lo => PErr (err_at lo "unexpected token") rest
                | PErr e _ => PErr e rest
                end
              else
                match r1 with
                | [] => POk (TyParen sp first) rest
                | lo => PErr (err_at lo "unexpected token") rest
                end
          end
      end
  | TGroup sp Bracket inner :: rest =>
      match parse_ty f true inner with
      | PErr e _ => PErr e rest
      | POk elem r1 =>
          if peek_punct ";" r1 then POk (TyArray sp elem (skipn 1 r1)) rest
          else match r1 with
               | [] => POk (TySlice sp elem) rest
               | lo => PErr (err_at lo "unexpected token") rest
               end
      end
  | _ =>
      if peek_punct "!" ts then (sp <-- parse_punct "!" ;; pret (TyNever sp)) ts
      else if peek_punct "&" ts then
        (amp <-- parse_punct "&" ;;
         lt <-- parse_opt_lifetime ;;
         m <-- parse_opt_kw "mut" ;;
         elem <-- parse_ty f false ;;
         pret (TyReference amp lt m elem)) ts
      else if peek_kw "_" ts then (sp <-- parse_kw "_" ;; pret (TyInfer sp)) ts
      else if peek_ident ts || peek_punct "::" ts || peek_kw "self" ts
              || peek_kw "Self" ts || peek_kw "super" ts || peek_kw "crate" ts then
        (p <-- parse_path f ;; pret (TyPath (fst p) (snd p))) ts
      else pfail "expected one of: type" ts
  end
  end

(** [Path::parse_helper(input, false)]. *)
with parse_path (fuel : nat) {struct fuel} : Parser (bool * list PathSegment) :=
  fun ts =>
  match fuel with
  | O => PErr (err_at ts "recursion limit reached") ts
  | S f =>
      (lc <-- parse_opt_punct "::" ;;
       s <-- parse_path_segment f ;;
       more <-- parse_path_rest f ;;
       pret (match lc with Some _ => true | None => false end, s :: more)) ts
  end

with parse_path_rest (fuel : nat) {struct fuel} : Parser (list PathSegment) :=
  fun ts =>
  match fuel with
  | O => PErr (err_at ts "recursion limit reached") ts
  | S f =>
      if peek_punct "::" ts then
        (_c <-- parse_punct "::" ;;
         s <-- parse_path_segment f ;;
         more <-- parse_path_rest f ;;
         pret (s :: more)) ts
      else POk [] ts
  end

(** [PathSegment::parse_helper(input, false)]. *)
with parse_path_segment (fuel : nat) {struct fuel} : Parser PathSegment :=
  fun ts =>
  match fuel with
  | O => PErr (err_at ts "recursion limit reached") ts
  | S f =>
      if peek_kw "super" ts || peek_kw "self" ts || peek_kw "crate" ts
         || peek_kw "extern" ts then
        (i <-- parse_ident_any ;; pret (PathSeg i None)) ts
      else
        (i <-- (if peek_kw "Self" ts then parse_ident_any else parse_ident) ;;
         fun r =>
           if (peek_punct "<" r && negb (peek_punct "<=" r))
              || (peek_punct "::" r && peek3 (peek_punct "<") r) then
             (a <-- parse_angle_args f ;; pret (PathSeg i (Some a))) r
           else POk (PathSeg i None) r) ts
  end

(** [AngleBracketedGenericArguments::parse]. *)
with parse_angle_args (fuel : nat) {struct fuel} : Parser (list GenericArgument) :=
  fun ts =>
  match fuel with
  | O => PErr (err_at ts "recursion limit reached") ts
  | S f =>
      (_c2 <-- parse_opt_punct "::" ;;
       _lt <-- parse_punct "<" ;;
       args <-- parse_generic_args f ;;
       _gt <-- parse_punct ">" ;;
       pret args) ts
  end

(** The argument loop: stop before [>], values separated by [,]. *)
with parse_generic_args (fuel : nat) {struct fuel} : Parser (list GenericArgument) :=
  fun ts =>
  match fuel with
  | O => PErr (err_at ts "recursion limit reached") ts
  | S f =>
      if peek_punct ">" ts then POk [] ts
      else
        (a <-- (if peek_lifetime ts && negb (peek2 (peek_punct "+") ts)
                then (l <-- parse_lifetime ;; pret (GALifetime l))
                else if peek_ident ts && peek2 (peek_punct "=") ts
                then pfail "associated type bindings are not modelled"
                else (t <-- parse_ty f true ;; pret (GAType t))) ;;
         fun r =>
           if peek_punct ">" r then POk [a] r
           else (_c <-- parse_punct "," ;;
                 more <-- parse_generic_args f ;;
                 pret (a :: more)) r) ts
  end.

(** Recursion depth of the type parser is bounded by the number of tokens;
    each level of nesting consumes at least one token, and a level uses at
    most four units of fuel. *)
Definition type_fuel (ts : TokenStream) : nat := 4 * ts_size ts + 4.

(** [Type::parse]. *)
Definition parse_type : Parser Ty := fun ts => parse_ty (type_fuel ts) true ts.

(** [Path::parse]. *)
Definition parse_path_top : Parser (bool * list PathSegment) :=
  fun ts => parse_path (type_fuel ts) ts.

(* ------------------------------------------------------------------ *)
(** ** Bounds, generics and where clauses *)

Inductive TypeParamBound :=
| TPBLifetime (l : Lifetime)
| TPBTrait (maybe : option span) (path : bool * list PathSegment).

(** [TypeParamBound::parse] (parenthesised bounds and [for<..>] binders
    are not modelled). *)
Definition parse_bound : Parser TypeParamBound := fun ts =>
  if peek_lifetime ts then (l <-- parse_lifetime ;; pret (TPBLifetime l)) ts
  else (q <-- parse_opt_punct "?" ;; p <-- parse_path_top ;; pret (TPBTrait q p)) ts.

(** The bound loops of [syn]: stop when [stop] holds, values separated by
    [+]. *)
Fixpoint bounds_go {A} (n : nat) (stop : TokenStream -> bool) (p : Parser A)
  : Parser (list A) := fun ts =>
  match n with
  | O => PErr (err_at ts "recursion limit reached") ts
  | S n' =>
      if stop ts then POk [] ts
      else match p ts with
           | PErr e r => PErr e r
           | POk a r =>
               if peek_punct "+" r then
                 match parse_punct "+" r with
                 | PErr e r' => PErr e r'
                 | POk _ r' =>
                     match bounds_go n' stop p r' with
                     | POk l r'' => POk (a :: l) r''
                     | PErr e r'' => PErr e r''
                     end
                 end
               else POk [a] r
           end
  end.

Definition parse_bounds {A} (stop : TokenStream -> bool) (p : Parser A)
  : Parser (list A) := fun ts => bounds_go (S (length ts)) stop p ts.

Inductive GenericParam :=
| GPLifetime (l : Lifetime) (bounds : list Lifetime)
| GPType (ident : Ident) (bounds : list TypeParamBound) (default : option Ty).

Record Generics := mkGenerics
  { g_lt : span; g_params : list GenericParam; g_gt : span }.

(** [LifetimeDef::parse]. *)
Definition parse_lifetime_def : Parser GenericParam :=
  l <-- parse_lifetime ;;
  fun ts =>
    if peek_punct ":" ts then
      (_c <-- parse_punct ":" ;;
       bs <-- parse_bounds (fun r => peek_punct "," r || peek_punct ">" r)
                           parse_lifetime ;;
       pret (GPLifetime l bs)) ts
    else POk (GPLifetime l []) ts.

(** [TypeParam::parse]. *)
Definition parse_type_param : Parser GenericParam :=
  i <-- parse_ident ;;
  bs <-- (fun ts =>
            if peek_punct ":" ts then
              (_c <-- parse_punct ":" ;;
               parse_bounds (fun r => peek_punct "," r || peek_punct ">" r
                                      || peek_punct "=" r) parse_bound) ts
            else POk [] ts) ;;
  d <-- (fun ts =>
           if peek_punct "=" ts then
             (_e <-- parse_punct "=" ;; t <-- parse_type ;; pret (Some t)) ts
           else POk None ts) ;;
  pret (GPType i bs d).

Fixpoint generic_params_go (n : nat) : Parser (list GenericParam) := fun ts =>
  match n with
  | O => PErr (err_at ts "recursion limit reached") ts
  | S n' =>
      if peek_punct ">" ts then POk [] ts
      else
        (g <-- (if peek_lifetime ts then parse_lifetime_def
                else if peek_ident ts then parse_type_param
                else pfail "expected one of: lifetime, identifier") ;;
         fun r =>
           if peek_punct ">" r then POk [g] r
           else (_c <-- parse_punct "," ;;
                 more <-- generic_params_go n' ;;
                 pret (g :: more)) r) ts
  end.

(** [Generics::parse] (attributes on parameters and const parameters are
    not modelled). *)
Definition parse_generics : Parser Generics := fun ts =>
  (lt <-- parse_punct "<" ;;
   ps <-- generic_params_go (S (length ts)) ;;
   gt <-- parse_punct ">" ;;
   pret (mkGenerics lt ps gt)) ts.

Inductive WherePredicate :=
| WPLifetime (l : Lifetime) (bounds : list Lifetime)
| WPType (bounded_ty : Ty) (bounds : list TypeParamBound).

Record WhereClause := mkWhereClause
  { wc_where : span; wc_predicates : list WherePredicate }.

(** The tokens that end a where clause or a bound list in [syn]. *)
Definition where_stop (ts : TokenStream) : bool :=
  is_empty ts || peek_group Brace ts || peek_punct "," ts || peek_punct ";" ts
  || (peek_punct ":" ts && negb (peek_punct "::" ts)) || peek_punct "=" ts.

(** [WherePredicate::parse] ([for<..>] binders are not modelled). *)
Definition parse_where_predicate : Parser WherePredicate := fun ts =>
  if peek_lifetime ts && peek2 (peek_punct ":") ts then
    (l <-- parse_lifetime ;;
     _c <-- parse_punct ":" ;;
     bs <-- parse_bounds (fun r => is_empty r || peek_group Brace r
                                   || peek_punct "," r) parse_lifetime ;;
     pret (WPLifetime l bs)) ts
  else
    (t <-- parse_type ;;
     _c <-- parse_punct ":" ;;
     bs <-- parse_bounds where_stop parse_bound ;;
     pret (WPType t bs)) ts.

Fixpoint where_preds_go (n : nat) : Parser (list WherePredicate) := fun ts =>
  match n with
  | O => PErr (err_at ts "recursion limit reached") ts
  | S n' =>
      if where_stop ts then POk [] ts
      else
        (p <-- parse_where_predicate ;;
         fun r =>
           if negb (peek_punct "," r) then POk [p] r
           else (_c <-- parse_punct "," ;;
                 more <-- where_preds_go n' ;;
                 pret (p :: more)) r) ts
  end.

(** [WhereClause::parse]. *)
Definition parse_where_clause : Parser WhereClause := fun ts =>
  (w <-- parse_kw "where" ;;
   ps <-- where_preds_go (S (length ts)) ;;
   pret (mkWhereClause w ps)) ts.

(* ------------------------------------------------------------------ *)
(** ** Patterns ([syn::Pat])

    Modelled: identifier patterns (with [ref] and [mut]), [_], reference
    patterns and tuple or parenthesised patterns.  Path, struct, literal,
    range, slice and or-patterns are not modelled (the model rejects them). *)

Inductive Pat :=
| PatIdent (by_ref : option span) (mutability : option span) (ident : Ident)
| PatWild (sp : span)
| PatReference (amp : span) (mutability : option span) (pat : Pat)
| PatTuple (paren : span) (elems : list Pat)
| PatParen (paren : span) (pat : Pat).

(** [pat.span()]: [syn] joins the spans of the pattern's tokens, which
    without span joining (stable [proc_macro2]) is the span of the first
    token. *)
Definition pat_span (p : Pat) : span :=
  match p with
  | PatIdent (Some sp) _ _ | PatIdent None (Some sp) _ => sp
  | PatIdent None None i => id_span i
  | PatWild sp | PatReference sp _ _ | PatTuple sp _ | PatParen sp _ => sp
  end.

Fixpoint parse_pat (fuel : nat) : Parser Pat := fun ts =>
  match fuel with
  | O => PErr (err_at ts "recursion limit reached") ts
  | S f =>
      if (peek_ident ts && (peek2 (peek_punct "::") ts || peek2 (peek_punct "!") ts
                            || peek2 (peek_group Brace) ts
                            || peek2 (peek_group Parenthesis) ts))
         || (peek_kw "self" ts && peek2 (peek_punct "::") ts)
         || peek_punct "::" ts || peek_punct "<" ts || peek_kw "Self" ts
         || peek_kw "super" ts || peek_kw "crate" ts then
        pfail "path patterns are not modelled" ts
      else if peek_kw "_" ts then (sp <-- parse_kw "_" ;; pret (PatWild sp)) ts
      else if peek_kw "ref" ts || peek_kw "mut" ts || peek_kw "self" ts
              || peek_ident ts then
        (r <-- parse_opt_kw "ref" ;;
         m <-- parse_opt_kw "mut" ;;
         i <-- parse_ident_any ;;
         pret (PatIdent r m i)) ts
      else if peek_punct "&" ts then
        (amp <-- parse_punct "&" ;;
         m <-- parse_opt_kw "mut" ;;
         p <-- parse_pat f ;;
         pret (PatReference amp m p)) ts
      else if peek_group Parenthesis ts then
        (g <-- parse_group Parenthesis "parentheses"
                 (parse_terminated (parse_pat f) ",") ;;
         pret (match g with
               | (sp, ([p], false)) => PatParen sp p
               | (sp, (ps, _)) => PatTuple sp ps
               end)) ts
      else pfail "expected one of: pattern" ts
  end.

(** [Pat::parse]. *)
Definition parse_pattern : Parser Pat := fun ts => parse_pat (S (ts_size ts)) ts.

(* ------------------------------------------------------------------ *)
(** ** Attributes, blocks, visibility, return types *)

(** [syn::Meta]: a path, a path with a parenthesised list (whose nested
    items are kept as their tokens), or [path = literal]. *)
Inductive Meta :=
| MetaPath (path : list Ident)
| MetaList (path : list Ident) (paren : span) (nested : TokenStream)
| MetaNameValue (path : list Ident) (eq : span) (lit : TokenTree).

Fixpoint meta_path_rest (n : nat) : Parser (list Ident) := fun ts =>
  match n with
  | O => PErr (err_at ts "recursion limit reached") ts
  | S n' =>
      if peek_punct "::" ts && peek3 (fun r => match r with
                                                | TIdent _ _ :: _ => true
                                                | _ => false end) ts then
        (_c <-- parse_punct "::" ;; i <-- parse_ident_any ;;
         more <-- meta_path_rest n' ;; pret (i :: more)) ts
      else POk [] ts
  end.

Definition parse_meta : Parser Meta := fun ts =>
  (i <-- parse_ident_any ;;
   more <-- meta_path_rest (S (length ts)) ;;
   fun r =>
     match r with
     | TGroup sp Parenthesis inner :: r' => POk (MetaList (i :: more) sp inner) r'
     | _ =>
         if peek_punct "=" r then
           (eq <-- parse_punct "=" ;;
            fun r' => match r' with
                      | (TLit _ _ as l) :: r'' => POk (MetaNameValue (i :: more) eq l) r''
                      | _ => PErr (err_at r' "expected literal") r'
                      end) r
         else POk (MetaPath (i :: more)) r
     end) ts.

(** [syn::Block]: the braced body.  The statements are kept as their
    tokens; the generators only re-emit them. *)
Record Block := mkBlock { blk_brace : span; blk_stmts : TokenStream }.

Definition parse_block : Parser Block := fun ts =>
  match ts with
  | TGroup sp Brace inner :: r => POk (mkBlock sp inner) r
  | _ => PErr (err_at ts "expected curly braces") ts
  end.

Inductive Visibility :=
| VisPublic (pub_sp : span)
| VisCrate (crate_sp : span)
| VisRestricted (pub_sp : span) (paren : span) (path : TokenStream)
| VisInherited.

(** [Visibility::parse]. *)
Definition parse_visibility : Parser Visibility := fun ts =>
  match ts with
  | TIdent sp s :: r =>
      if String.eqb s "pub" then
        match r with
        | TGroup gsp Parenthesis inner :: r' =>
            match inner with
            | [TIdent _ "crate"] | [TIdent _ "self"] | [TIdent _ "super"] =>
                POk (VisRestricted sp gsp inner) r'
            | TIdent _ "in" :: _ => POk (VisRestricted sp gsp inner) r'
            | _ => POk (VisPublic sp) r
            end
        | _ => POk (VisPublic sp) r
        end
      else if String.eqb s "crate" then
        if peek_punct "::" r then POk VisInherited ts else POk (VisCrate sp) r
      else POk VisInherited ts
  | _ => POk VisInherited ts
  end.

Inductive ReturnType :=
| RetDefault
| RetType (arrow : span) (ty : Ty).

(** [ReturnType::parse]. *)
Definition parse_return_type : Parser ReturnType := fun ts =>
  if peek_punct "->" ts then
    (a <-- parse_punct "->" ;; t <-- parse_type ;; pret (RetType a t)) ts
  else POk RetDefault ts.

(* ------------------------------------------------------------------ *)
(** ** The macro's own grammar ([ThisDef], [ParsedFnDef], headers) *)

(** [enum ThisDef]: the receiver of a method, with the tokens it was
    written with (their spans). *)
Inductive ThisDef :=
| Explicit (mutability : option span) (self_tok : span) (colon : span)
    (ty : Ty) (comma : option span)
| Implicit (amp : option span) (mutability : option span) (self_tok : span)
    (comma : option span).

(** [impl Parse for ThisDef]. *)
Definition parse_this_def : Parser ThisDef := fun ts =>
  if (peek2 (peek_punct ":") ts || peek3 (peek_punct ":") ts)
     && (peek_kw "self" ts || peek2 (peek_kw "self") ts) then
    (m <-- parse_opt_kw "mut" ;;
     s <-- parse_kw "self" ;;
     c <-- parse_punct ":" ;;
     t <-- parse_type ;;
     cm <-- parse_opt_punct "," ;;
     pret (Explicit m s c t cm)) ts
  else if peek_kw "self" ts || peek2 (peek_kw "self") ts
          || peek3 (peek_kw "self") ts then
    (a <-- parse_opt_punct "&" ;;
     m <-- parse_opt_kw "mut" ;;
     s <-- parse_kw "self" ;;
     cm <-- parse_opt_punct "," ;;
     pret (Implicit a m s cm)) ts
  else pfail "Could not find self type!" ts.

(** [impl ToTokens for ThisDef]: the receiver's tokens, in order, at the
    spans they were parsed with.  A token of [Token![..]] prints as one
    [Alone] punctuation or one identifier, an absent optional token as
    nothing; [ty_tokens] is [syn::Type]'s [ToTokens]. *)
Section ThisDefTokens.

Variable ty_tokens : Ty -> TokenStream.

Definition opt_kw_tokens (k : string) (o : option span) : TokenStream :=
  match o with Some sp => [TIdent sp k] | None => [] end.

Definition opt_punct_tokens (c : ascii) (o : option span) : TokenStream :=
  match o with Some sp => [TPunct sp c Alone] | None => [] end.

Definition this_def_tokens (t : ThisDef) : TokenStream :=
  match t with
  | Explicit mut_def self_def colon ty comma =>
      (opt_kw_tokens "mut" mut_def ++ [TIdent self_def "self"; TPunct colon ":" Alone]
       ++ ty_tokens ty ++ opt_punct_tokens "," comma)%list
  | Implicit and mut_def self_def comma =>
      (opt_punct_tokens "&" and ++ opt_kw_tokens "mut" mut_def ++ [TIdent self_def "self"]
       ++ opt_punct_tokens "," comma)%list
  end.

End ThisDefTokens.

(** [ThisDef::is_sized_dependent]. *)
Definition is_sized_dependent (this : option ThisDef) : bool :=
  match this with
  | Some (Implicit None _ _ _) => true
  | _ => false
  end.

(** [struct ParsedFnDef]; each attribute is kept with the span of its
    brackets. *)
Record ParsedFnDef := mkParsedFnDef
  { meta : list (Meta * span);
    func_token : span;
    gen : option Generics;
    paren : span;
    this : option ThisDef;
    params : list (Pat * Ty);
    ret : ReturnType;
    w_clause : option WhereClause;
    code : Block }.

(** [parse_pattern_type_pair]. *)
Definition parse_pattern_type_pair : Parser (Pat * Ty) :=
  p <-- parse_pattern ;; _c <-- parse_punct ":" ;; t <-- parse_type ;; pret (p, t).

(** The [while input.peek(Token![#])] loop of [ParsedFnDef::parse]. *)
Fixpoint parse_attrs_go (n : nat) : Parser (list (Meta * span)) := fun ts =>
  match n with
  | O => PErr (err_at ts "recursion limit reached") ts
  | S n' =>
      if peek_punct "#" ts then
        (_h <-- parse_punct "#" ;;
         g <-- parse_group Bracket "square brackets" parse_meta ;;
         more <-- parse_attrs_go n' ;;
         pret ((snd g, fst g) :: more)) ts
      else POk [] ts
  end.

(** The contents of the parameter parentheses: an optional receiver, read
    with [.ok()], then the pattern-type pairs. *)
Definition parse_params_content : Parser (option ThisDef * list (Pat * Ty)) :=
  th <-- pok parse_this_def ;;
  ps <-- parse_terminated parse_pattern_type_pair "," ;;
  pret (th, fst ps).

(** [impl Parse for ParsedFnDef]. *)
Definition parse_fn_def : Parser ParsedFnDef := fun ts =>
  (m <-- parse_attrs_go (S (length ts)) ;;
   f <-- parse_kw "fn" ;;
   g <-- (fun r => if peek_punct "<" r
                   then (x <-- parse_generics ;; pret (Some x)) r
                   else POk None r) ;;
   pc <-- parse_group Parenthesis "parentheses" parse_params_content ;;
   rt <-- parse_return_type ;;
   w <-- (fun r => if peek_kw "where" r
                   then (x <-- parse_where_clause ;; pret (Some x)) r
                   else POk None r) ;;
   c <-- parse_block ;;
   pret (mkParsedFnDef m f g (fst pc) (fst (snd pc)) (snd (snd pc)) rt w c)) ts.

Record OverloadableGlobal := mkOverloadableGlobal
  { og_vis : Visibility; og_name : Ident; og_as : span;
    og_fns : list ParsedFnDef }.

(** [impl Parse for OverloadableGlobal]. *)
Definition parse_overloadable_global : Parser OverloadableGlobal :=
  v <-- parse_visibility ;;
  n <-- parse_ident ;;
  a <-- parse_kw "as" ;;
  fns <-- parse_terminated parse_fn_def "," ;;
  pret (mkOverloadableGlobal v n a (fst fns)).

Record OverloadableAssociated := mkOverloadableAssociated
  { oa_vis : Visibility; oa_struct_name : Ident; oa_colons : span;
    oa_name : Ident; oa_as : span; oa_fns : list ParsedFnDef }.

(** [impl Parse for OverloadableAssociated]. *)
Definition parse_overloadable_associated : Parser OverloadableAssociated :=
  v <-- parse_visibility ;;
  s <-- parse_ident ;;
  c <-- parse_punct "::" ;;
  n <-- parse_ident ;;
  a <-- parse_kw "as" ;;
  fns <-- parse_terminated parse_fn_def "," ;;
  pret (mkOverloadableAssociated v s c n a (fst fns)).

(** [syn::parse]: the whole input must be consumed. *)
Definition parse_all {A} (p : Parser A) (ts : TokenStream) : PResult A :=
  match p ts with
  | POk a [] => POk a []
  | POk _ lo => PErr (err_at lo "unexpected token") lo
  | PErr e r => PErr e r
  end.

(* ------------------------------------------------------------------ *)
(** ** Generated code

    The items built by the [quote!] templates, one field per interpolated
    value; the fixed parts of the templates are the constructors. *)

Inductive Result (A E : Type) := Ok (a : A) | Err (e : E).
Arguments Ok {A E}. Arguments Err {A E}.

(** [syn::Error]: a message at a span. *)
Record SynError := mkSynError { se_span : span; se_msg : string }.

(** [Iterator<Item = Result<T, E>>::collect::<Result<Vec<T>, E>>]: the
    first error stops the collection. *)
Fixpoint collect_results {A E} (l : list (Result A E)) : Result (list A) E :=
  match l with
  | [] => Ok []
  | Ok a :: l' => match collect_results l' with
                  | Ok as' => Ok (a :: as')
                  | Err e => Err e
                  end
  | Err e :: _ => Err e
  end.

(** [quote_spanned!(b.span => #[#m])]. *)
Record Attribute := mkAttribute { attr_span : span; attr_meta : Meta }.

Definition attr_of (mb : Meta * span) : Attribute := mkAttribute (snd mb) (fst mb).

Inductive FnTrait := TFn | TFnOnce | TFnMut.

(** The receivers [&self], [self] and [&mut self] of the protocol
    methods. *)
Inductive SelfArg := SelfRef | SelfValue | SelfMut.

(** Method bodies: [{ #code }], or [self.<method>(<arg>)]. *)
Inductive Expr :=
| EBlock (b : Block)
| ESelfCall (method : string) (arg : string).

(** [extern "rust-call" fn <name>(<self>, <pat>: <ty>) -> <output> <body>],
    preceded by [#(#meta)*]. *)
Record ProtocolMethod := mkProtocolMethod
  { pm_attrs : list Attribute;
    pm_abi : string;
    pm_name : string;
    pm_self : SelfArg;
    pm_arg_pat : Pat;
    pm_arg_ty : Ty;
    pm_output : Ty;
    pm_body : Expr }.

(** [impl#gen <trait><#args> for #name #w_clause { [type Output = ..;]
    <method> }]. *)
Record ProtocolImpl := mkProtocolImpl
  { pi_gen : option Generics;
    pi_trait : FnTrait;
    pi_args : Ty;
    pi_self_ty : Ident;
    pi_where : option WhereClause;
    pi_output : option Ty;
    pi_method : ProtocolMethod }.

(** The return type of a signature: the declared one, or [()] built with
    the span of the parameter parentheses. *)
Definition ret_ty (paren : span) (r : ReturnType) : Ty :=
  match r with
  | RetType _ ty => ty
  | RetDefault => TyTuple paren []
  end.

(** The tuple type of the parameter types and the tuple pattern of the
    parameter patterns, each element followed by a comma. *)
Definition tuple_ty (pty : list Ty) : Ty := TyTuple call_site pty.
Definition tuple_pat (ppt : list Pat) : Pat := PatTuple call_site ppt.

(** [Self::Output]. *)
Definition self_output : Ty :=
  TyPath false [PathSeg (mkIdent call_site "Self") None;
                PathSeg (mkIdent call_site "Output") None].

(** The argument [x] of [call_once] and [call_mut]. *)
Definition x_pat : Pat := PatIdent None None (mkIdent call_site "x").

(** The three implementations [quote!]d for one signature, in template
    order: [Fn], [FnOnce], [FnMut]. *)
Definition fn_impls (name : Ident) (f : ParsedFnDef) : list ProtocolImpl :=
  let ret := ret_ty (paren f) (ret f) in
  let pty := map snd (params f) in
  let ppt := map fst (params f) in
  let meta := map attr_of (meta f) in
  [ mkProtocolImpl (gen f) TFn (tuple_ty pty) name (w_clause f) None
      (mkProtocolMethod meta "rust-call" "call" SelfRef (tuple_pat ppt)
         (tuple_ty pty) self_output (EBlock (code f)));
    mkProtocolImpl (gen f) TFnOnce (tuple_ty pty) name (w_clause f) (Some ret)
      (mkProtocolMethod meta "rust-call" "call_once" SelfValue x_pat
         (tuple_ty pty) self_output (ESelfCall "call" "x"));
    mkProtocolImpl (gen f) TFnMut (tuple_ty pty) name (w_clause f) None
      (mkProtocolMethod meta "rust-call" "call_mut" SelfMut x_pat
         (tuple_ty pty) self_output (ESelfCall "call" "x")) ].

Definition receiver_not_allowed (sp : span) : SynError :=
  mkSynError sp "This declaration cannot contain a `self`-style parameter.".

(** The closure mapped over the signatures in [gen_fn_decls]. *)
Definition gen_fn_decl (name : Ident) (f : ParsedFnDef)
  : Result (list ProtocolImpl) SynError :=
  match this f with
  | Some _ => Err (receiver_not_allowed (paren f))
  | None => Ok (fn_impls name f)
  end.

(** [gen_fn_decls]. *)
Definition gen_fn_decls (fns : list ParsedFnDef) (name : Ident)
  : Result (list ProtocolImpl) SynError :=
  match collect_results (map (gen_fn_decl name) fns) with
  | Ok l => Ok (concat l)
  | Err e => Err e
  end.

(** [#vis trait #trait_name: #sized_requirement {
       fn #name#gen(#this #trait_params) -> #ret #w_clause; }], the
    parameters separated by commas. *)
Record TraitDecl := mkTraitDecl
  { td_vis : Visibility;
    td_name : Ident;
    td_supertraits : list string;
    td_fn : Ident;
    td_gen : option Generics;
    td_this : option ThisDef;
    td_params : list (Ident * Ty);
    td_ret : Ty;
    td_where : option WhereClause }.

(** [impl #trait_name for #struct_name { #(#meta)*
       fn #name#gen(#this #impl_params) -> #ret #w_clause { #code } }]. *)
Record TraitImpl := mkTraitImpl
  { ti_trait : Ident;
    ti_self_ty : Ident;
    ti_attrs : list Attribute;
    ti_fn : Ident;
    ti_gen : option Generics;
    ti_this : option ThisDef;
    ti_params : list (Pat * Ty);
    ti_ret : Ty;
    ti_where : option WhereClause;
    ti_body : Block }.

(** The marker type [#vis struct #name;] with its three attributes, spanned
    at the name. *)
Record MarkerStruct := mkMarkerStruct
  { ms_span : span; ms_attrs : list string; ms_vis : Visibility; ms_name : Ident }.

Inductive Item :=
| IStruct (s : MarkerStruct)
| IProtocolImpl (i : ProtocolImpl)
| ITrait (t : TraitDecl)
| ITraitImpl (i : TraitImpl).

(** [Ident::new(&format!("{}Trait{}", struct_name, index), struct_name.span())]. *)
Definition trait_name (struct_name : Ident) (index : nat) : Ident :=
  mkIdent (id_span struct_name) (id_name struct_name ++ "Trait" ++ pretty index).

(** [Ident::new(&format!("_{}", index), lhs.span())]: [_0], [_1], ... *)
Definition trait_param (index : nat) (pt : Pat * Ty) : Ident * Ty :=
  (mkIdent (pat_span (fst pt)) ("_" ++ pretty index), snd pt).

(** The trait declared for the signature [f] at position [index] (the
    [let] bindings and the first half of the [quote!] of the closure in
    [gen_trait_fn_decls]). *)
Definition trait_decl_of (name struct_name : Ident) (vis : Visibility)
  (index : nat) (f : ParsedFnDef) : TraitDecl :=
  let ret := ret_ty (paren f) (ret f) in
  let trait_params := imap trait_param (params f) in
  let sized_requirement := if is_sized_dependent (this f) then ["Sized"] else [] in
  mkTraitDecl vis (trait_name struct_name index) sized_requirement name (gen f)
    (this f) trait_params ret (w_clause f).

(** Its implementation on the owner type (second half of the [quote!]). *)
Definition trait_impl_of (name struct_name : Ident) (index : nat)
  (f : ParsedFnDef) : TraitImpl :=
  let ret := ret_ty (paren f) (ret f) in
  let impl_params := params f in
  let meta := map attr_of (meta f) in
  mkTraitImpl (trait_name struct_name index) struct_name meta name (gen f)
    (this f) impl_params ret (w_clause f) (code f).

(** The closure mapped over the enumerated signatures in
    [gen_trait_fn_decls]. *)
Definition gen_trait_fn_decl (name struct_name : Ident) (vis : Visibility)
  (index : nat) (f : ParsedFnDef) : Result (list Item) SynError :=
  Ok [ ITrait (trait_decl_of name struct_name vis index f);
       ITraitImpl (trait_impl_of name struct_name index f) ].

(** [gen_trait_fn_decls]. *)
Definition gen_trait_fn_decls (fns : list ParsedFnDef) (name struct_name : Ident)
  (vis : Visibility) : Result (list Item) SynError :=
  match collect_results (imap (gen_trait_fn_decl name struct_name vis) fns) with
  | Ok l => Ok (concat l)
  | Err e => Err e
  end.

(** What a macro invocation expands to: the generated items, the
    [compile_error!] that [parse_macro_input!] returns on a parse error, or
    a panic of the macro ([.unwrap()] on an error). *)
Inductive Expansion :=
| Expanded (items : list Item)
| CompileError (e : ParseError)
| Panic (msg : string).

Definition unwrap_failed (e : SynError) : string :=
  "called `Result::unwrap()` on an `Err` value: " ++ se_msg e.

(** [#[proc_macro] pub fn overloadable]. *)
Definition overloadable (input : TokenStream) : Expansion :=
  match parse_all parse_overloadable_global input with
  | PErr e _ => CompileError e
  | POk g _ =>
      let name := og_name g in
      let struct_decl :=
        mkMarkerStruct (id_span name)
          ["doc(hidden)"; "allow(non_camel_case_types)"; "allow(dead_code)"]
          (og_vis g) name in
      match gen_fn_decls (og_fns g) name with
      | Ok fn_decls => Expanded (IStruct struct_decl :: map IProtocolImpl fn_decls)
      | Err e => Panic (unwrap_failed e)
      end
  end.

(** [#[proc_macro] pub fn overloadable_member]. *)
Definition overloadable_member (input : TokenStream) : Expansion :=
  match parse_all parse_overloadable_associated input with
  | PErr e _ => CompileError e
  | POk a _ =>
      match gen_trait_fn_decls (oa_fns a) (oa_name a) (oa_struct_name a) (oa_vis a) with
      | Ok items => Expanded items
      | Err e => Panic (unwrap_failed e)
      end
  end.

(* ------------------------------------------------------------------ *)
(** ** Invoking the generated protocol implementations

    [invokes hdr_eq run_body items pi args v]: calling the method of the
    implementation [pi] (one of [items]) on the argument tuple [args]
    returns [v].  [run_body b p args] is the value of the user's block [b]
    with the pattern [p] bound to [args].  A body [self.call(x)] calls the
    [Fn] implementation that method resolution selects for the argument
    type of [x]: an [Fn] implementation for the same marker type whose
    header (generics, argument tuple, where clause) the host compiler
    identifies, by [hdr_eq], with the header of [pi]. *)
Definition impl_header (pi : ProtocolImpl) : option Generics * Ty * option WhereClause :=
  (pi_gen pi, pi_args pi, pi_where pi).

Inductive invokes {Val : Type}
  (hdr_eq : option Generics * Ty * option WhereClause ->
            option Generics * Ty * option WhereClause -> Prop)
  (run_body : Block -> Pat -> list Val -> Val)
  (items : list ProtocolImpl) : ProtocolImpl -> list Val -> Val -> Prop :=
| invokes_block pi b args :
    pm_body (pi_method pi) = EBlock b ->
    invokes hdr_eq run_body items pi args (run_body b (pm_arg_pat (pi_method pi)) args)
| invokes_self_call pi x q args v :
    pm_body (pi_method pi) = ESelfCall "call" x ->
    pm_arg_pat (pi_method pi) = PatIdent None None (mkIdent call_site x) ->
    In q items -> pi_trait q = TFn -> pi_self_ty q = pi_self_ty pi ->
    hdr_eq (impl_header q) (impl_header pi) ->
    invokes hdr_eq run_body items q args v ->
    invokes hdr_eq run_body items pi args v.

(** The header shared by the three implementations of a signature. *)
Definition sig_header (f : ParsedFnDef) : option Generics * Ty * option WhereClause :=
  (gen f, tuple_ty (map snd (params f)), w_clause f).

(* ------------------------------------------------------------------ *)
(** ** Helpers for the statements *)

(** The span of the parameter parentheses of the first signature that has
    a receiver. *)
Fixpoint first_receiver_paren (fns : list ParsedFnDef) : option span :=
  match fns with
  | [] => None
  | f :: r => match this f with
              | Some _ => Some (paren f)
              | None => first_receiver_paren r
              end
  end.

(** The names of the traits among generated items, in order. *)
Definition trait_names (items : list Item) : list Ident :=
  flat_map (fun it => match it with ITrait td => [td_name td] | _ => [] end) items.

(** The tokens of one attribute [#[..]] in front of a signature: the [#]
    and the bracket group with its contents. *)
Record AttrSyntax := mkAttrSyntax
  { at_hash : span; at_bracket : span; at_inner : TokenStream }.

Definition attr_tokens (a : AttrSyntax) : TokenStream :=
  [TPunct (at_hash a) "#" Alone; TGroup (at_bracket a) Bracket (at_inner a)].

(* ------------------------------------------------------------------ *)
(** ** Concrete invocations *)

(** [my_func as fn(x: usize, y: &str) -> f32 { body }] *)
Definition scenario_a : TokenStream :=
  [TIdent 1 "my_func"; TIdent 2 "as"; TIdent 3 "fn";
   TGroup 4 Parenthesis
     [TIdent 5 "x"; TPunct 6 ":" Alone; TIdent 7 "usize"; TPunct 8 "," Alone;
      TIdent 9 "y"; TPunct 10 ":" Alone; TPunct 11 "&" Alone; TIdent 12 "str"];
   TPunct 13 "-" Joint; TPunct 14 ">" Alone; TIdent 15 "f32";
   TGroup 16 Brace [TIdent 17 "body"]].

(** [my_func as fn<T>() where [T: Debug] {}] *)
Definition scenario_b_bracketed : TokenStream :=
  [TIdent 1 "my_func"; TIdent 2 "as"; TIdent 3 "fn";
   TPunct 4 "<" Alone; TIdent 5 "T"; TPunct 6 ">" Alone;
   TGroup 7 Parenthesis []; TIdent 8 "where";
   TGroup 9 Bracket [TIdent 10 "T"; TPunct 11 ":" Alone; TIdent 12 "Debug"];
   TGroup 13 Brace []].

(** [my_func as fn<T>() where T: Debug {}] *)
Definition scenario_b : TokenStream :=
  [TIdent 1 "my_func"; TIdent 2 "as"; TIdent 3 "fn";
   TPunct 4 "<" Alone; TIdent 5 "T"; TPunct 6 ">" Alone;
   TGroup 7 Parenthesis []; TIdent 8 "where";
   TIdent 10 "T"; TPunct 11 ":" Alone; TIdent 12 "Debug";
   TGroup 13 Brace []].

(** [Foo::my_func as fn(&self) -> usize {1}, fn(self, x: usize) -> Vec<Self> {}] *)
Definition scenario_c : TokenStream :=
  [TIdent 1 "Foo"; TPunct 2 ":" Joint; TPunct 3 ":" Alone; TIdent 4 "my_func";
   TIdent 5 "as";
   TIdent 6 "fn"; TGroup 7 Parenthesis [TPunct 8 "&" Alone; TIdent 9 "self"];
   TPunct 10 "-" Joint; TPunct 11 ">" Alone; TIdent 12 "usize";
   TGroup 13 Brace [TLit 14 "1"];
   TPunct 15 "," Alone;
   TIdent 16 "fn";
   TGroup 17 Parenthesis
     [TIdent 18 "self"; TPunct 19 "," Alone; TIdent 20 "x"; TPunct 21 ":" Alone;
      TIdent 22 "usize"];
   TPunct 23 "-" Joint; TPunct 24 ">" Alone; TIdent 25 "Vec"; TPunct 26 "<" Alone;
   TIdent 27 "Self"; TPunct 28 ">" Alone; TGroup 29 Brace []].

(** [f as fn(&self) {}] *)
Definition free_with_receiver : TokenStream :=
  [TIdent 1 "f"; TIdent 2 "as"; TIdent 3 "fn";
   TGroup 4 Parenthesis [TPunct 5 "&" Alone; TIdent 6 "self"];
   TGroup 7 Brace []].

(** The path type [name], written at span [sp]. *)
Definition simple_ty (sp : span) (name : string) : Ty :=
  TyPath false [PathSeg (mkIdent sp name) None].

(** [#[inline] #[doc = "d"] fn(a: u8, (b, c): (u8, u8)) {}] as parsed. *)
Definition sample_sig : ParsedFnDef :=
  mkParsedFnDef
    [(MetaPath [mkIdent 2 "inline"], 1); (MetaNameValue [mkIdent 4 "doc"] 5 (TLit 6 "d"), 3)]
    7 None 8 None
    [(PatIdent None None (mkIdent 9 "a"), simple_ty 10 "u8");
     (PatTuple 11 [PatIdent None None (mkIdent 12 "b"); PatIdent None None (mkIdent 13 "c")],
      TyTuple 14 [simple_ty 15 "u8"; simple_ty 16 "u8"])]
    RetDefault None (mkBlock 17 []).

(** [fn(mut self, x: isize) {}] as parsed. *)
Definition sample_self_sig : ParsedFnDef :=
  mkParsedFnDef [] 1 None 2 (Some (Implicit None (Some 3) 4 (Some 5)))
    [(PatIdent None None (mkIdent 6 "x"), simple_ty 7 "isize")]
    RetDefault None (mkBlock 8 []).

(* ================================================================== *)
(** * Properties *)

(** ** The free-function generator *)

Lemma collect_gen_fn_decl (name : Ident) (fns : list ParsedFnDef) :
  collect_results (map (gen_fn_decl name) fns) =
  match first_receiver_paren fns with
  | Some sp => Err (receiver_not_allowed sp)
  | None => Ok (map (fn_impls name) fns)
  end.
Proof.
  induction fns as [|f fns IH]; [reflexivity|].
  simpl. unfold gen_fn_decl at 1. destruct (this f); [reflexivity|].
  rewrite IH. destruct (first_receiver_paren fns); reflexivity.
Qed.

Lemma gen_fn_decls_ok (fns : list ParsedFnDef) (name : Ident) items :
  gen_fn_decls fns name = Ok items ->
  items = concat (map (fn_impls name) fns) /\ first_receiver_paren fns = None.
Proof.
  unfold gen_fn_decls. rewrite collect_gen_fn_decl.
  destruct (first_receiver_paren fns); intros H; inversion H; auto.
Qed.

Lemma first_receiver_paren_some (fns : list ParsedFnDef) (f : ParsedFnDef) :
  In f fns -> this f <> None ->
  exists g, In g fns /\ this g <> None /\ first_receiver_paren fns = Some (paren g).
Proof.
  induction fns as [|h fns IH]; simpl; [tauto|].
  intros Hin Hthis. destruct (this h) eqn:Hh.
  - exists h. split; [auto|]. split; [congruence|reflexivity].
  - destruct Hin as [<-|Hin]; [congruence|].
    destruct (IH Hin Hthis) as (g & ? & ? & ?). exists g. auto.
Qed.

Lemma fn_impls_in (fns : list ParsedFnDef) (name : Ident) items f pi :
  gen_fn_decls fns name = Ok items -> In f fns -> In pi (fn_impls name f) ->
  In pi items.
Proof.
  intros Hg Hf Hpi. apply gen_fn_decls_ok in Hg as [-> _].
  apply in_concat. exists (fn_impls name f). split; [apply in_map|]; auto.
Qed.

(** C1. A signature with a receiver ([self], [&self], [mut self],
    [self: T], ...) makes the free-function generator fail with the
    "cannot contain a `self`-style parameter" error ([ReceiverNotAllowed])
    at the parameter parentheses of the first such signature; no item is
    produced, and the [overloadable!] expansion of any input with these
    signatures is the panic of [.unwrap()] on that error, with no emitted
    code. *)
Theorem gen_fn_decls_receiver_not_allowed (fns : list ParsedFnDef) (f : ParsedFnDef) :
  In f fns -> this f <> None ->
  exists g, In g fns /\ this g <> None /\
    (forall name, gen_fn_decls fns name = Err (receiver_not_allowed (paren g))) /\
    (forall input og, parse_all parse_overloadable_global input = POk og [] ->
       og_fns og = fns ->
       overloadable input = Panic (unwrap_failed (receiver_not_allowed (paren g)))).
Proof.
  intros Hin Hthis.
  destruct (first_receiver_paren_some fns f Hin Hthis) as (g & Hg & Hgt & Hfirst).
  assert (Hgen : forall name, gen_fn_decls fns name = Err (receiver_not_allowed (paren g))).
  { intros name. unfold gen_fn_decls. rewrite collect_gen_fn_decl, Hfirst. reflexivity. }
  exists g. split; [exact Hg|]. split; [exact Hgt|]. split; [exact Hgen|].
  intros input og Hparse Hfns. unfold overloadable. rewrite Hparse, Hfns, Hgen.
  reflexivity.
Qed.

(** C2. Return-type defaulting, in both generators: without [->] the
    generated return type is the empty tuple type built with the span of
    the parameter parentheses; with [-> T] it is [T] itself.  In the free
    generator it is the [Output] of the [FnOnce] implementation (the three
    methods return [Self::Output]); in the member generator it is the
    return type of the trait method and of its implementation. *)
Theorem return_type_default_or_declared (f : ParsedFnDef) (name struct_name : Ident)
  (vis : Visibility) (index : nat) :
  let R := match ret f with
           | RetDefault => TyTuple (paren f) []
           | RetType _ t => t
           end in
  (forall impls, gen_fn_decl name f = Ok impls ->
     map pi_output impls = [None; Some R; None] /\
     map pi_trait impls = [TFn; TFnOnce; TFnMut] /\
     Forall (fun pi => pm_output (pi_method pi) = self_output) impls) /\
  (forall items, gen_trait_fn_decl name struct_name vis index f = Ok items ->
     exists td ti, items = [ITrait td; ITraitImpl ti] /\
       td_ret td = R /\ ti_ret ti = R).
Proof.
  intros R. split.
  - intros impls H. unfold gen_fn_decl in H. destruct (this f); [discriminate|].
    inversion H; subst impls. unfold fn_impls. simpl.
    split; [|split; [reflexivity|repeat constructor]].
    unfold R, ret_ty. destruct (ret f); reflexivity.
  - intros items H. inversion H; subst items.
    eexists _, _. split; [reflexivity|].
    unfold R; simpl; unfold ret_ty; destruct (ret f); auto.
Qed.

Lemma gen_fn_decls_receiver_not_allowed_witness :
  gen_fn_decls [sample_sig; sample_self_sig] (mkIdent 0 "f") = Err (receiver_not_allowed 2).
Proof.
  destruct (gen_fn_decls_receiver_not_allowed [sample_sig; sample_self_sig] sample_self_sig
              ltac:(simpl; auto) ltac:(discriminate)) as (g & Hg & Ht & Hgen & _).
  simpl in Hg. destruct Hg as [<-|[<-|[]]]; [simpl in Ht; congruence|apply Hgen].
Defined.

Lemma return_type_default_or_declared_witness :
  gen_fn_decl (mkIdent 0 "f") sample_sig = Ok (fn_impls (mkIdent 0 "f") sample_sig) /\
  map pi_output (fn_impls (mkIdent 0 "f") sample_sig) = [None; Some (TyTuple 8 []); None].
Proof.
  split; [reflexivity|].
  exact (proj1 (proj1 (return_type_default_or_declared sample_sig (mkIdent 0 "f")
                         (mkIdent 0 "S") VisInherited 0) _ eq_refl)).
Defined.

(** On a concrete invocation: [f as fn(&self) {}] makes the macro panic. *)
Example overloadable_free_with_receiver :
  overloadable free_with_receiver = Panic (unwrap_failed (receiver_not_allowed 4)).
Proof. vm_compute. reflexivity. Qed.

(** ** The member generator *)

Lemma collect_results_imap_ok {A B E} (f : nat -> A -> Result B E)
  (h : nat -> A -> B) (l : list A) :
  (forall i a, f i a = Ok (h i a)) ->
  collect_results (imap f l) = Ok (imap h l).
Proof.
  revert f h. induction l as [|a l IH]; intros f h Hfh; [reflexivity|].
  rewrite !imap_cons. simpl. rewrite Hfh.
  rewrite (IH (f ∘ S) (h ∘ S)); [reflexivity|].
  intros; apply Hfh.
Qed.

Lemma gen_trait_fn_decls_eq (fns : list ParsedFnDef) (name struct_name : Ident)
  (vis : Visibility) :
  gen_trait_fn_decls fns name struct_name vis =
  Ok (concat (imap (fun i f => [ITrait (trait_decl_of name struct_name vis i f);
                                ITraitImpl (trait_impl_of name struct_name i f)]) fns)).
Proof.
  unfold gen_trait_fn_decls.
  erewrite collect_results_imap_ok; [reflexivity|]. reflexivity.
Qed.

Lemma member_items_in (fns : list ParsedFnDef) (name struct_name : Ident)
  (vis : Visibility) (i : nat) (f : ParsedFnDef) :
  fns !! i = Some f ->
  In (ITrait (trait_decl_of name struct_name vis i f))
     (concat (imap (fun i f => [ITrait (trait_decl_of name struct_name vis i f);
                                ITraitImpl (trait_impl_of name struct_name i f)]) fns)) /\
  In (ITraitImpl (trait_impl_of name struct_name i f))
     (concat (imap (fun i f => [ITrait (trait_decl_of name struct_name vis i f);
                                ITraitImpl (trait_impl_of name struct_name i f)]) fns)).
Proof.
  intros Hi.
  pose proof (elem_of_lookup_imap_2
                (fun i f => [ITrait (trait_decl_of name struct_name vis i f);
                             ITraitImpl (trait_impl_of name struct_name i f)]) fns f i Hi)
    as Hel.
  apply list_elem_of_In in Hel.
  split; apply in_concat; eexists; (split; [exact Hel|]); simpl; auto.
Qed.

(** [map] over [imap] when the result only depends on the index. *)
Lemma map_imap_index {A B C} (f : nat -> A -> B) (g : B -> C) (h : nat -> C)
  (l : list A) :
  (forall i x, g (f i x) = h i) ->
  map g (imap f l) = map h (seq 0 (length l)).
Proof.
  revert f h. induction l as [|x l IH]; intros f h Hfh; [reflexivity|].
  simpl. rewrite Hfh. f_equal.
  rewrite <- seq_shift, map_map.
  apply (IH (fun i => f (S i)) (fun i => h (S i))). intros; apply Hfh.
Qed.

(** [map] over [imap] when the result only depends on the element. *)
Lemma map_imap_elem {A B C} (f : nat -> A -> B) (g : B -> C) (k : A -> C)
  (l : list A) :
  (forall i x, g (f i x) = k x) ->
  map g (imap f l) = map k l.
Proof.
  revert f. induction l as [|x l IH]; intros f Hfk; [reflexivity|].
  simpl. rewrite Hfk. f_equal. apply (IH (fun i => f (S i))). intros; apply Hfk.
Qed.

Lemma trait_names_concat_imap (K : nat -> ParsedFnDef -> list Item)
  (F : nat -> ParsedFnDef -> TraitDecl) (G : nat -> ParsedFnDef -> TraitImpl)
  (fns : list ParsedFnDef) :
  (forall i f, K i f = [ITrait (F i f); ITraitImpl (G i f)]) ->
  trait_names (concat (imap K fns)) = imap (fun i f => td_name (F i f)) fns.
Proof.
  revert K F G. induction fns as [|f fns IH]; intros K F G HK; [reflexivity|].
  rewrite !imap_cons. cbn [concat]. rewrite HK.
  unfold trait_names. rewrite flat_map_app. simpl. f_equal.
  apply (IH (K ∘ S) (F ∘ S) (G ∘ S)). intros; apply HK.
Qed.

Lemma trait_name_inj (struct_name : Ident) (i j : nat) :
  id_name (trait_name struct_name i) = id_name (trait_name struct_name j) -> i = j.
Proof.
  simpl. intros H.
  apply (inj (String.append (id_name struct_name))) in H.
  apply (inj (String.append "Trait")) in H.
  apply (inj pretty) in H. exact H.
Qed.

(** C3. For [N] signatures the member generator emits exactly [N] trait
    declarations, the [i]-th (from 0) named [<Owner>Trait<i>], and no two
    of these names are equal. *)
Theorem trait_names_distinct (fns : list ParsedFnDef) (name struct_name : Ident)
  (vis : Visibility) :
  exists items, gen_trait_fn_decls fns name struct_name vis = Ok items /\
    length (trait_names items) = length fns /\
    map id_name (trait_names items) =
      map (fun i => id_name struct_name ++ "Trait" ++ pretty i) (seq 0 (length fns)) /\
    NoDup (map id_name (trait_names items)).
Proof.
  rewrite gen_trait_fn_decls_eq. eexists. split; [reflexivity|].
  rewrite (trait_names_concat_imap _ (trait_decl_of name struct_name vis)
             (trait_impl_of name struct_name)); [|reflexivity].
  assert (Hn : map id_name (imap (fun i f => td_name (trait_decl_of name struct_name vis i f)) fns)
               = map (fun i => id_name struct_name ++ "Trait" ++ pretty i) (seq 0 (length fns))).
  { apply map_imap_index. reflexivity. }
  split; [|split; [exact Hn|]].
  - apply length_imap.
  - rewrite Hn. apply NoDup_ListNoDup.
    apply Finite.Injective_map_NoDup; [|apply List.seq_NoDup].
    intros i j H. exact (trait_name_inj struct_name i j H).
Qed.

Lemma trait_names_distinct_witness :
  exists items,
    gen_trait_fn_decls [sample_sig; sample_self_sig; sample_sig]
      (mkIdent 0 "f") (mkIdent 0 "Foo") VisInherited = Ok items /\
    map id_name (trait_names items) = ["FooTrait0"; "FooTrait1"; "FooTrait2"].
Proof.
  destruct (trait_names_distinct [sample_sig; sample_self_sig; sample_sig]
              (mkIdent 0 "f") (mkIdent 0 "Foo") VisInherited) as (items & Hg & _ & Hn & _).
  exists items. split; [exact Hg|].
  rewrite Hn. vm_compute. reflexivity.
Defined.

(** C4. The trait declared for a member signature has the supertrait
    [Sized] exactly when its receiver is present, implicit and has no
    leading [&] ([self] or [mut self]); otherwise ([&self], [&mut self],
    [self: T], [mut self: T], no receiver) it has no supertrait. *)
Theorem sized_requirement_iff_by_value_self (fns : list ParsedFnDef)
  (name struct_name : Ident) (vis : Visibility) :
  exists items, gen_trait_fn_decls fns name struct_name vis = Ok items /\
  forall i f, fns !! i = Some f ->
    exists td, In (ITrait td) items /\ td_name td = trait_name struct_name i /\
      ((td_supertraits td = ["Sized"] /\
        exists m s c, this f = Some (Implicit None m s c)) \/
       (td_supertraits td = [] /\
        forall m s c, this f <> Some (Implicit None m s c))).
Proof.
  rewrite gen_trait_fn_decls_eq. eexists. split; [reflexivity|].
  intros i f Hi.
  exists (trait_decl_of name struct_name vis i f).
  split; [exact (proj1 (member_items_in fns name struct_name vis i f Hi))|].
  split; [reflexivity|].
  unfold trait_decl_of, is_sized_dependent; simpl.
  destruct (this f) as [[m s c ty cm|[amp|] m s c]|].
  - right. split; [reflexivity|]. intros ? ? ? H; discriminate H.
  - right. split; [reflexivity|]. intros ? ? ? H; discriminate H.
  - left. split; [reflexivity|]. eauto.
  - right. split; [reflexivity|]. intros ? ? ? H; discriminate H.
Qed.

Lemma sized_requirement_iff_by_value_self_witness :
  exists td, td_name td = trait_name (mkIdent 0 "Foo") 1 /\ td_supertraits td = ["Sized"].
Proof.
  destruct (sized_requirement_iff_by_value_self [sample_sig; sample_self_sig]
              (mkIdent 0 "f") (mkIdent 0 "Foo") VisInherited) as (items & _ & H).
  destruct (H 1 sample_self_sig eq_refl) as (td & _ & Hname & [[Hs _]|[_ Hn]]).
  - exists td. split; assumption.
  - exfalso. exact (Hn (Some 3) 4 (Some 5) eq_refl).
Defined.

(** C10. In the member generator, the trait method of the signature at
    position [i] names its parameters [_0], [_1], ... (one per
    pattern-type pair, in order, each with the span of the user's pattern),
    while the implementation on the owner type keeps the user's patterns;
    both list the declared parameter types in the same order, and both
    carry the signature's receiver unchanged. *)
Theorem trait_params_positional (fns : list ParsedFnDef) (name struct_name : Ident)
  (vis : Visibility) :
  exists items, gen_trait_fn_decls fns name struct_name vis = Ok items /\
  forall i f, fns !! i = Some f ->
    exists td ti, In (ITrait td) items /\ In (ITraitImpl ti) items /\
      ti_trait ti = td_name td /\
      map (fun p => id_name (fst p)) (td_params td) =
        map (fun j => "_" ++ pretty j) (seq 0 (length (params f))) /\
      map (fun p => id_span (fst p)) (td_params td) =
        map (fun pt => pat_span (fst pt)) (params f) /\
      ti_params ti = params f /\
      map snd (td_params td) = map snd (params f) /\
      map snd (ti_params ti) = map snd (params f) /\
      td_this td = this f /\ ti_this ti = this f.
Proof.
  rewrite gen_trait_fn_decls_eq. eexists. split; [reflexivity|].
  intros i f Hi.
  destruct (member_items_in fns name struct_name vis i f Hi) as [Htd Hti].
  eexists _, _. split; [exact Htd|]. split; [exact Hti|].
  simpl. split; [reflexivity|].
  split; [apply map_imap_index; reflexivity|].
  split; [apply map_imap_elem; reflexivity|].
  split; [reflexivity|].
  split; [apply map_imap_elem; reflexivity|].
  auto.
Qed.

Lemma trait_params_positional_witness :
  exists td, map (fun p => id_name (fst p)) (td_params td) = ["_0"; "_1"].
Proof.
  destruct (trait_params_positional [sample_self_sig; sample_sig]
              (mkIdent 0 "f") (mkIdent 0 "Foo") VisInherited) as (items & _ & H).
  destruct (H 1 sample_sig eq_refl) as (td & _ & _ & _ & _ & Hn & _).
  exists td. rewrite Hn. vm_compute. reflexivity.
Defined.

Lemma in_gen_fn_decls (fns : list ParsedFnDef) (name : Ident) items q :
  gen_fn_decls fns name = Ok items -> In q items ->
  exists g, In g fns /\ In q (fn_impls name g).
Proof.
  intros H Hq. destruct (gen_fn_decls_ok fns name items H) as [-> _].
  apply in_concat in Hq as (l & Hl & Hq).
  apply in_map_iff in Hl as (g & <- & Hg). eauto.
Qed.

Lemma fn_impls_shape (name : Ident) (f : ParsedFnDef) pi :
  In pi (fn_impls name f) ->
  impl_header pi = sig_header f /\ pi_self_ty pi = name /\
  pi_args pi = tuple_ty (map snd (params f)) /\
  pm_arg_ty (pi_method pi) = tuple_ty (map snd (params f)) /\
  pm_attrs (pi_method pi) = map attr_of (meta f).
Proof.
  simpl. intros [<-|[<-|[<-|[]]]]; repeat split.
Qed.

(** C7. For every signature of a successful free-function expansion, each
    of its three implementations ([Fn], [FnOnce], [FnMut]) is among the
    generated items and takes as argument the tuple of the declared
    parameter types, in order (so its arity is the number of
    pattern-type pairs); on [my_func as fn(x: usize, y: &str) -> f32 { body }]
    the expansion is the marker type and three implementations over
    [(usize, &str)], the [FnOnce] one with [Output = f32]. *)
Theorem protocol_args_are_param_types (fns : list ParsedFnDef) (name : Ident) items :
  gen_fn_decls fns name = Ok items ->
  (forall f, In f fns ->
     map pi_trait (fn_impls name f) = [TFn; TFnOnce; TFnMut] /\
     Forall (fun pi =>
       In pi items /\
       pi_args pi = TyTuple call_site (map snd (params f)) /\
       pm_arg_ty (pi_method pi) = TyTuple call_site (map snd (params f)) /\
       length (map snd (params f)) = length (params f)) (fn_impls name f)) /\
  (exists ms impls,
     overloadable scenario_a = Expanded (IStruct ms :: map IProtocolImpl impls) /\
     ms_name ms = mkIdent 1 "my_func" /\
     map pi_trait impls = [TFn; TFnOnce; TFnMut] /\
     Forall (fun pi => pi_args pi =
       TyTuple call_site [simple_ty 7 "usize"; TyReference 11 None None (simple_ty 12 "str")])
       impls /\
     map pi_output impls = [None; Some (simple_ty 15 "f32"); None]).
Proof.
  intros H. split.
  - intros f Hf. split; [reflexivity|].
    apply List.Forall_forall. intros pi Hpi.
    destruct (fn_impls_shape name f pi Hpi) as (_ & _ & Ha & Hm & _).
    split; [exact (fn_impls_in fns name items f pi H Hf Hpi)|].
    split; [exact Ha|]. split; [exact Hm|]. apply length_map.
  - remember (overloadable scenario_a) as e eqn:E. vm_compute in E. subst e.
    eexists _, [_; _; _]. split; [reflexivity|].
    split; [reflexivity|]. split; [reflexivity|].
    split; [repeat constructor|reflexivity].
Qed.

Lemma protocol_args_are_param_types_witness :
  Forall (fun pi => pi_args pi =
    tuple_ty [simple_ty 10 "u8"; TyTuple 14 [simple_ty 15 "u8"; simple_ty 16 "u8"]])
    (fn_impls (mkIdent 0 "f") sample_sig).
Proof.
  assert (Hg : gen_fn_decls [sample_sig] (mkIdent 0 "f") =
               Ok (fn_impls (mkIdent 0 "f") sample_sig)) by reflexivity.
  destruct (protocol_args_are_param_types [sample_sig] (mkIdent 0 "f") _ Hg) as [H _].
  destruct (H sample_sig (or_introl eq_refl)) as [_ Hall].
  rewrite List.Forall_forall in Hall |- *. intros pi Hpi.
  destruct (Hall pi Hpi) as (_ & Ha & _). rewrite Ha. reflexivity.
Defined.

(** C8. For every signature of a successful free-function expansion, the
    methods [call], [call_once] and [call_mut] of its three
    implementations each carry the full list of the signature's
    attributes, in the original order and with no duplicate removed, each
    attribute spanned at the span of its original brackets. *)
Theorem attributes_on_every_method (fns : list ParsedFnDef) (name : Ident) items :
  gen_fn_decls fns name = Ok items ->
  forall f, In f fns ->
    Forall (fun pi => In pi items) (fn_impls name f) /\
    map (fun pi => pm_name (pi_method pi)) (fn_impls name f) =
      ["call"; "call_once"; "call_mut"] /\
    map (fun pi => pm_attrs (pi_method pi)) (fn_impls name f) =
      [map attr_of (meta f); map attr_of (meta f); map attr_of (meta f)] /\
    map attr_meta (map attr_of (meta f)) = map fst (meta f) /\
    map attr_span (map attr_of (meta f)) = map snd (meta f).
Proof.
  intros H f Hf. split.
  - apply List.Forall_forall. intros pi Hpi. exact (fn_impls_in fns name items f pi H Hf Hpi).
  - split; [reflexivity|]. split; [reflexivity|].
    rewrite !map_map. split; reflexivity.
Qed.

Lemma attributes_on_every_method_witness :
  let A := [mkAttribute 1 (MetaPath [mkIdent 2 "inline"]);
            mkAttribute 3 (MetaNameValue [mkIdent 4 "doc"] 5 (TLit 6 "d"))] in
  map (fun pi => pm_attrs (pi_method pi)) (fn_impls (mkIdent 0 "f") sample_sig) = [A; A; A].
Proof.
  assert (Hg : gen_fn_decls [sample_sig] (mkIdent 0 "f") =
               Ok (fn_impls (mkIdent 0 "f") sample_sig)) by reflexivity.
  destruct (attributes_on_every_method [sample_sig] (mkIdent 0 "f") _ Hg sample_sig
              (or_introl eq_refl)) as (_ & _ & Ha & _).
  intros A. rewrite Ha. reflexivity.
Defined.

Section Invocation.

Context {Val : Type}.
Variable hdr_eq : option Generics * Ty * option WhereClause ->
                  option Generics * Ty * option WhereClause -> Prop.
Variable run_body : Block -> Pat -> list Val -> Val.

Lemma invokes_fn_impls (fns : list ParsedFnDef) (name : Ident) items :
  gen_fn_decls fns name = Ok items ->
  (forall f g, In f fns -> In g fns -> hdr_eq (sig_header g) (sig_header f) -> g = f) ->
  forall pi args v, invokes hdr_eq run_body items pi args v ->
  forall f, In f fns -> In pi (fn_impls name f) ->
  v = run_body (code f) (tuple_pat (map fst (params f))) args.
Proof.
  intros Hgen Hcoh pi args v Hinv.
  induction Hinv as [pi b args Hb | pi x q args v Hb Hp Hq Htr Hself Hh Hinv IH];
    intros f Hf Hpi.
  - simpl in Hpi. destruct Hpi as [<-|[<-|[<-|[]]]]; simpl in Hb; try discriminate.
    inversion Hb; reflexivity.
  - destruct (in_gen_fn_decls fns name items q Hgen Hq) as (g & Hg & Hqg).
    destruct (fn_impls_shape name g q Hqg) as (Hhq & _).
    destruct (fn_impls_shape name f pi Hpi) as (Hhp & _).
    rewrite Hhq, Hhp in Hh.
    assert (g = f) as -> by exact (Hcoh f g Hf Hg Hh).
    exact (IH f Hf Hqg).
Qed.

(** C9. In a successful free-function expansion, assume that the host
    compiler identifies implementation headers by [hdr_eq] (reflexive) and
    that the expansion is coherent (two signatures whose headers it
    identifies are the same signature, as the compiler rejects conflicting
    implementations).  Then for every signature [f], each of its three
    implementations is among the generated items, and calling its method
    ([call], or [call_once] / [call_mut], which delegate to [self.call(x)])
    on any argument tuple returns exactly the value of the user's body of
    [f] with the parameter patterns bound to the arguments. *)
Theorem protocol_forms_agree (fns : list ParsedFnDef) (name : Ident) items :
  gen_fn_decls fns name = Ok items ->
  (forall h, hdr_eq h h) ->
  (forall f g, In f fns -> In g fns -> hdr_eq (sig_header g) (sig_header f) -> g = f) ->
  forall f, In f fns ->
    map pi_trait (fn_impls name f) = [TFn; TFnOnce; TFnMut] /\
    forall pi, In pi (fn_impls name f) ->
      In pi items /\
      forall args v, invokes hdr_eq run_body items pi args v <->
                     v = run_body (code f) (tuple_pat (map fst (params f))) args.
Proof.
  intros Hgen Hrefl Hcoh f Hf. split; [reflexivity|].
  intros pi Hpi. split; [exact (fn_impls_in fns name items f pi Hgen Hf Hpi)|].
  intros args v. split.
  - intros Hinv. exact (invokes_fn_impls fns name items Hgen Hcoh pi args v Hinv f Hf Hpi).
  - intros ->.
    assert (Hcall : In (hd pi (fn_impls name f)) items)
      by (apply (fn_impls_in fns name items f); [exact Hgen|exact Hf|left; reflexivity]).
    assert (Hblk : forall p a w b, pm_body (pi_method p) = EBlock b ->
              w = run_body b (pm_arg_pat (pi_method p)) a ->
              invokes hdr_eq run_body items p a w)
      by (intros p a w b Hb ->; apply invokes_block; exact Hb).
    simpl in Hpi. destruct Hpi as [<-|[<-|[<-|[]]]].
    + apply (Hblk _ _ _ (code f)); reflexivity.
    + eapply (invokes_self_call hdr_eq run_body items _ "x");
        [reflexivity|reflexivity|exact Hcall|reflexivity|reflexivity|apply Hrefl|].
      apply (Hblk _ _ _ (code f)); reflexivity.
    + eapply (invokes_self_call hdr_eq run_body items _ "x");
        [reflexivity|reflexivity|exact Hcall|reflexivity|reflexivity|apply Hrefl|].
      apply (Hblk _ _ _ (code f)); reflexivity.
Qed.

End Invocation.

(** On the signature [fn(a: u8, (b, c): (u8, u8))], with a body that
    returns the number of arguments, each of [call], [call_once] and
    [call_mut] on [(1, 2)] returns 2. *)
Lemma protocol_forms_agree_witness :
  Forall (fun pi =>
    invokes eq (fun _ _ (args : list nat) => length args)
      (fn_impls (mkIdent 0 "f") sample_sig) pi [1; 2] 2)
    (fn_impls (mkIdent 0 "f") sample_sig).
Proof.
  assert (Hg : gen_fn_decls [sample_sig] (mkIdent 0 "f") =
               Ok (fn_impls (mkIdent 0 "f") sample_sig)) by reflexivity.
  assert (Hcoh : forall f g, In f [sample_sig] -> In g [sample_sig] ->
                 sig_header g = sig_header f -> g = f)
    by (simpl; intros f g [<-|[]] [<-|[]] _; reflexivity).
  destruct (protocol_forms_agree eq (fun _ _ (args : list nat) => length args)
              [sample_sig] (mkIdent 0 "f") _ Hg (fun h => eq_refl) Hcoh
              sample_sig (or_introl eq_refl)) as [_ H].
  apply List.Forall_forall. intros pi Hpi.
  apply (proj2 (H pi Hpi)). reflexivity.
Defined.

(** ** Constraint clauses *)

(** The bracketed constraint form [where [T: Debug]] is not accepted: the
    macro expands to a compile error and emits no implementation. *)
Lemma bracketed_where_rejected :
  exists e, overloadable scenario_b_bracketed = CompileError e.
Proof.
  exists (mkParseError (Some 11) "unexpected token"). vm_compute. reflexivity.
Qed.

(** C5 (amended). The constraint clause of a signature is syn's
    [WhereClause], written in standard Rust syntax: [fn<T>() where T: Debug {}]
    expands to the marker type and three implementations generic over [T]
    (the parsed [<T>]), constrained by [T: Debug], over the empty argument
    tuple, with unit output ([()] at the span of the parameter
    parentheses); the bracketed form [where [T: Debug]] instead yields a
    compile error. *)
Theorem standard_where_expands :
  (exists e, overloadable scenario_b_bracketed = CompileError e) /\
  exists ms impls,
    overloadable scenario_b = Expanded (IStruct ms :: map IProtocolImpl impls) /\
    ms_name ms = mkIdent 1 "my_func" /\
    map pi_trait impls = [TFn; TFnOnce; TFnMut] /\
    Forall (fun pi =>
      pi_gen pi = Some (mkGenerics 4 [GPType (mkIdent 5 "T") [] None] 6) /\
      pi_where pi = Some (mkWhereClause 8
        [WPType (simple_ty 10 "T") [TPBTrait None (false, [PathSeg (mkIdent 12 "Debug") None])]]) /\
      pi_args pi = tuple_ty []) impls /\
    map pi_output impls = [None; Some (TyTuple 7 []); None].
Proof.
  split.
  - eexists. vm_compute. reflexivity.
  - remember (overloadable scenario_b) as e eqn:E. vm_compute in E. subst e.
    eexists _, [_; _; _]. split; [reflexivity|].
    split; [reflexivity|]. split; [reflexivity|].
    split; [repeat constructor|reflexivity].
Qed.

(** ** Header shapes *)

Lemma accept_as_ident_not_kw (n : string) :
  accept_as_ident n = true ->
  String.eqb n "pub" = false /\ String.eqb n "crate" = false.
Proof.
  intros H. split.
  - destruct (String.eqb_spec n "pub") as [->|]; [discriminate H|reflexivity].
  - destruct (String.eqb_spec n "crate") as [->|]; [discriminate H|reflexivity].
Qed.

(** The free-function entry point does not switch to the member shape on
    [Owner::Name as ...]: it reports a missing [as] at the first [:]. *)
Lemma member_header_rejected_by_overloadable :
  overloadable scenario_c = CompileError (mkParseError (Some 2) "expected `as`").
Proof. vm_compute. reflexivity. Qed.

(** C6 (amended). No lookahead chooses between the header shapes: each
    entry point parses one fixed shape.  [overloadable] reads
    [Name as ...] and, on an [Owner::...] header, fails with syn's
    ["expected `as`"] at the span of the first [:]; [overloadable_member]
    reads [Owner::Name as ...] and, on a [Name as ...] header, fails with
    ["expected `::`"] at the span of [as].  Each accepts its own shape
    (scenario A, and the member example of scenario C). *)
Theorem entry_points_fixed_shape (sp c1 c2 a : span) (n : string) (sg : Spacing)
  (rest : TokenStream) :
  accept_as_ident n = true ->
  overloadable (TIdent sp n :: TPunct c1 ":" Joint :: TPunct c2 ":" sg :: rest) =
    CompileError (mkParseError (Some c1) "expected `as`") /\
  overloadable_member (TIdent sp n :: TIdent a "as" :: rest) =
    CompileError (mkParseError (Some a) "expected `::`") /\
  (exists items, overloadable scenario_a = Expanded items) /\
  (exists items, overloadable_member scenario_c = Expanded items).
Proof.
  intros H. destruct (accept_as_ident_not_kw n H) as [Hp Hc].
  split; [|split; [|split]].
  - unfold overloadable, parse_all, parse_overloadable_global, pbind; simpl.
    rewrite Hp, Hc; simpl. rewrite H. reflexivity.
  - unfold overloadable_member, parse_all, parse_overloadable_associated, pbind; simpl.
    rewrite Hp, Hc; simpl. rewrite H. reflexivity.
  - eexists. vm_compute. reflexivity.
  - eexists. vm_compute. reflexivity.
Qed.

Lemma entry_points_fixed_shape_witness :
  overloadable_member [TIdent 1 "my_func"; TIdent 2 "as"; TIdent 3 "fn";
                       TGroup 4 Parenthesis []; TGroup 5 Brace []] =
    CompileError (mkParseError (Some 2) "expected `::`").
Proof.
  destruct (entry_points_fixed_shape 1 2 3 2 "my_func" Alone
              [TIdent 3 "fn"; TGroup 4 Parenthesis []; TGroup 5 Brace []])
    as (_ & Hm & _); [reflexivity|].
  exact Hm.
Defined.

(* ================================================================== *)
(** * Further properties of the parsers and generators *)

(** ** Receivers ([ThisDef]) *)

Lemma skip1_ident sp x r : skip1 (TIdent sp x :: r) = r.
Proof. reflexivity. Qed.

Lemma skip1_alone sp c r : skip1 (TPunct sp c Alone :: r) = r.
Proof. reflexivity. Qed.

(** An implicit receiver ([self], [mut self], [&self], [&mut self], with or
    without its comma) printed by [ThisDef::to_tokens] is parsed back by
    [ThisDef::parse] as the same receiver, with the same spans, leaving the
    tokens after it, provided neither of the first two following token
    trees is a [:] (which would select the explicit route) and, without the
    comma, the next token is no comma. *)
Theorem this_def_implicit_round_trip (ty_tokens : Ty -> TokenStream)
  (a m : option span) (s : span) (c : option span) (rest : TokenStream) :
  peek_punct ":" rest = false -> peek_punct ":" (skip1 rest) = false ->
  (c = None -> peek_punct "," rest = false) ->
  parse_this_def (this_def_tokens ty_tokens (Implicit a m s c) ++ rest)%list =
    POk (Implicit a m s c) rest.
Proof.
  intros H1 H2 H3.
  destruct a as [a|], m as [m|], c as [c|];
    unfold parse_this_def, peek2, peek3; simpl this_def_tokens; simpl app;
    rewrite ?skip1_ident, ?skip1_alone; try rewrite H1; try rewrite H2; simpl.
  all: rewrite ?skip1_ident; try rewrite H1; simpl.
  all: unfold pbind, parse_opt_punct, parse_opt_kw, pret; simpl.
  all: try rewrite (H3 eq_refl); simpl.
  all: reflexivity.
Qed.

Lemma this_def_implicit_round_trip_witness :
  parse_this_def
    (this_def_tokens (fun _ => []) (Implicit (Some 1) (Some 2) 3 (Some 4)) ++
     [TIdent 5 "x"; TIdent 6 "y"])%list =
  POk (Implicit (Some 1) (Some 2) 3 (Some 4)) [TIdent 5 "x"; TIdent 6 "y"].
Proof.
  apply this_def_implicit_round_trip; reflexivity.
Defined.

(** A bare [self] followed directly by a typed parameter, without a comma
    ([fn(self x: T)]), is not kept as a receiver: [ThisDef::parse] takes the
    explicit route, consumes [self], fails on the missing [:], and [.ok()]
    turns the failure into "no receiver" while keeping [self] consumed; the
    parameters are then read from [x: T] on. *)
Theorem receiver_without_comma_dropped (s x c : span) (n : string) (sg : Spacing)
  (rest : TokenStream) :
  parse_params_content (TIdent s "self" :: TIdent x n :: TPunct c ":" sg :: rest) =
  (ps <-- parse_terminated parse_pattern_type_pair "," ;; pret (None, fst ps))
    (TIdent x n :: TPunct c ":" sg :: rest).
Proof. reflexivity. Qed.

Lemma parse_attrs_go_none n ts :
  peek_punct "#" ts = false -> parse_attrs_go (S n) ts = POk [] ts.
Proof. intros H. simpl. rewrite H. reflexivity. Qed.

(** A receiver with a named lifetime, [&'a self] or [&'a mut self], is not
    accepted: the signature [fn(&'a self ..) ..] fails to parse. *)
Theorem lifetime_receiver_rejected (fn_sp pr s1 s2 s3 s4 : span) (sg : Spacing)
  (l : string) (m : option span) (rest more : TokenStream) :
  exists e, parse_fn_def
    (TIdent fn_sp "fn" ::
     TGroup pr Parenthesis
       (TPunct s1 "&" sg :: TPunct s2 "'" Joint :: TIdent s3 l ::
        opt_kw_tokens "mut" m ++ TIdent s4 "self" :: rest)%list :: more) = PErr e more.
Proof.
  unfold parse_fn_def, pbind at 1. rewrite parse_attrs_go_none by reflexivity.
  destruct sg, m as [m|]; eexists; reflexivity.
Qed.

(** A parameter list with no [self] among its first three token trees has
    no receiver, and the receiver attempt consumes nothing: the parameters
    are read from the start. *)
Theorem no_self_no_receiver (ts : TokenStream) :
  peek_kw "self" ts = false -> peek2 (peek_kw "self") ts = false ->
  peek3 (peek_kw "self") ts = false ->
  parse_params_content ts =
  (ps <-- parse_terminated parse_pattern_type_pair "," ;; pret (None, fst ps)) ts.
Proof.
  intros H1 H2 H3. unfold parse_params_content, pbind at 1, pok, parse_this_def.
  rewrite H1, H2, H3, Bool.andb_false_r. reflexivity.
Qed.

Lemma no_self_no_receiver_witness :
  parse_params_content [TIdent 1 "x"; TPunct 2 ":" Alone; TIdent 3 "u8"] =
  POk (None, [(PatIdent None None (mkIdent 1 "x"), simple_ty 3 "u8")]) [].
Proof.
  rewrite no_self_no_receiver by reflexivity. vm_compute. reflexivity.
Defined.

(** ** Lists and attributes *)

Lemma terminated_go_rest {A} n (p : Parser A) sep ts x r :
  terminated_go n p sep ts = POk x r -> r = [].
Proof.
  revert ts x r. induction n as [|n IH]; intros ts x r H; simpl in H; [discriminate|].
  destruct ts as [|t ts]; simpl in H; [inversion H; reflexivity|].
  destruct (p (t :: ts)) as [a r1|]; [|discriminate].
  destruct r1 as [|t1 r1]; [simpl in H; inversion H; reflexivity|].
  cbn [is_empty] in H.
  destruct (parse_punct sep (t1 :: r1)) as [_s r2|]; [|discriminate].
  destruct (terminated_go n p sep r2) as [[l tr] r3|] eqn:E; [|discriminate].
  inversion H; subst. exact (IH _ _ _ E).
Qed.

(** [parse_terminated] (the signature list of both headers, the parameter
    list of a signature) accepts the empty stream as the empty list, and
    succeeds only by consuming its whole input. *)
Theorem parse_terminated_consumes_all {A} (p : Parser A) (sep : string) :
  parse_terminated p sep [] = POk ([], false) [] /\
  forall ts x r, parse_terminated p sep ts = POk x r -> r = [].
Proof.
  split; [reflexivity|]. intros ts x r. apply terminated_go_rest.
Qed.

Lemma parse_terminated_consumes_all_witness :
  parse_terminated parse_ident "," [TIdent 1 "a"; TPunct 2 "," Alone] =
    POk ([mkIdent 1 "a"], true) [] /\ [] = @nil TokenTree.
Proof.
  split; [reflexivity|].
  exact (proj2 (parse_terminated_consumes_all parse_ident ",")
           [TIdent 1 "a"; TPunct 2 "," Alone] ([mkIdent 1 "a"], true) [] eq_refl).
Defined.

Lemma length_flat_map_attr attrs :
  length (flat_map attr_tokens attrs) = 2 * length attrs.
Proof. induction attrs as [|a attrs IH]; simpl; [reflexivity|]. rewrite IH. lia. Qed.

Lemma parse_attrs_go_list n attrs metas rest :
  Forall2 (fun a m => parse_meta (at_inner a) = POk m []) attrs metas ->
  peek_punct "#" rest = false -> length attrs < n ->
  parse_attrs_go n (flat_map attr_tokens attrs ++ rest)%list =
    POk (combine metas (map at_bracket attrs)) rest.
Proof.
  intros HF Hr. revert n. induction HF as [|a m attrs metas Hm HF IH]; intros n Hn.
  - destruct n as [|n]; [simpl in Hn; lia|]. apply parse_attrs_go_none. exact Hr.
  - destruct n as [|n]; [simpl in Hn; lia|].
    simpl. unfold pbind, parse_group. simpl. rewrite Hm.
    rewrite IH by (simpl in Hn; lia). reflexivity.
Qed.

(** The attributes [#[..]] in front of a signature are collected in their
    order, each with the span of its brackets, and do not affect the rest
    of the parse: the signature parses as it does without them, with their
    list as its [meta]. *)
Theorem signature_attrs_in_order attrs metas rest :
  Forall2 (fun a m => parse_meta (at_inner a) = POk m []) attrs metas ->
  peek_punct "#" rest = false ->
  parse_fn_def (flat_map attr_tokens attrs ++ rest)%list =
    match parse_fn_def rest with
    | POk f r =>
        POk (mkParsedFnDef (combine metas (map at_bracket attrs)) (func_token f) (gen f)
               (paren f) (this f) (params f) (ret f) (w_clause f) (code f)) r
    | PErr e r => PErr e r
    end.
Proof.
  intros HF Hr. unfold parse_fn_def, pbind.
  rewrite (parse_attrs_go_list _ attrs metas rest HF Hr).
  2:{ rewrite length_app, length_flat_map_attr. simpl; lia. }
  rewrite parse_attrs_go_none by exact Hr.
  repeat match goal with
         | |- context [match ?x with POk _ _ => _ | PErr _ _ => _ end] =>
             destruct x; try reflexivity
         end.
Qed.

Lemma signature_attrs_in_order_witness :
  parse_fn_def
    (flat_map attr_tokens [mkAttrSyntax 1 2 [TIdent 3 "inline"];
                           mkAttrSyntax 4 5 [TIdent 6 "cold"]] ++
     [TIdent 7 "fn"; TGroup 8 Parenthesis []; TGroup 9 Brace []])%list =
  POk (mkParsedFnDef [(MetaPath [mkIdent 3 "inline"], 2); (MetaPath [mkIdent 6 "cold"], 5)]
         7 None 8 None [] RetDefault None (mkBlock 9 [])) [].
Proof.
  rewrite (signature_attrs_in_order _ [MetaPath [mkIdent 3 "inline"]; MetaPath [mkIdent 6 "cold"]]);
    [reflexivity| |reflexivity].
  repeat constructor.
Defined.

(** ** Outcomes of the two entry points *)

Lemma parse_all_rest {A} (p : Parser A) ts a r :
  parse_all p ts = POk a r -> r = [].
Proof.
  unfold parse_all. destruct (p ts) as [x [|t l]|]; intros H; inversion H; reflexivity.
Qed.


Lemma first_receiver_paren_none (fns : list ParsedFnDef) :
  first_receiver_paren fns = None -> Forall (fun f => this f = None) fns.
Proof.
  induction fns as [|f fns IH]; simpl; intros H; [constructor|].
  destruct (this f) eqn:Hf; [discriminate|]. constructor; auto.
Qed.

Lemma length_concat_fn_impls (name : Ident) (fns : list ParsedFnDef) :
  length (concat (map (fn_impls name) fns)) = 3 * length fns.
Proof. induction fns as [|f fns IH]; simpl; [reflexivity|]. rewrite IH. lia. Qed.

(** When [overloadable!] expands, its input parsed completely as a free-form
    header, no signature has a receiver, and the output is the marker struct
    followed by the three protocol implementations of each signature, in
    order: one item plus three per signature. *)
Theorem overloadable_expanded_shape (input : TokenStream) items :
  overloadable input = Expanded items ->
  exists g, parse_all parse_overloadable_global input = POk g [] /\
    Forall (fun f => this f = None) (og_fns g) /\
    items = IStruct (mkMarkerStruct (id_span (og_name g))
                       ["doc(hidden)"; "allow(non_camel_case_types)"; "allow(dead_code)"]
                       (og_vis g) (og_name g))
            :: map IProtocolImpl (concat (map (fn_impls (og_name g)) (og_fns g))) /\
    length items = 1 + 3 * length (og_fns g).
Proof.
  unfold overloadable. destruct (parse_all parse_overloadable_global input) as [g r|] eqn:E;
    [|discriminate].
  pose proof (parse_all_rest _ _ _ _ E) as ->.
  destruct (gen_fn_decls (og_fns g) (og_name g)) as [l|] eqn:Hg; [|discriminate].
  intros H. inversion H; subst items.
  destruct (gen_fn_decls_ok _ _ _ Hg) as [-> Hn].
  exists g. split; [reflexivity|]. split; [exact (first_receiver_paren_none _ Hn)|].
  split; [reflexivity|]. simpl. rewrite length_map, length_concat_fn_impls. reflexivity.
Qed.

Lemma overloadable_expanded_shape_witness :
  exists items, overloadable scenario_a = Expanded items /\
  exists g, parse_all parse_overloadable_global scenario_a = POk g [] /\
    Forall (fun f => this f = None) (og_fns g) /\
    items = IStruct (mkMarkerStruct (id_span (og_name g))
                       ["doc(hidden)"; "allow(non_camel_case_types)"; "allow(dead_code)"]
                       (og_vis g) (og_name g))
            :: map IProtocolImpl (concat (map (fn_impls (og_name g)) (og_fns g))) /\
    length items = 1 + 3 * length (og_fns g).
Proof.
  eexists. split; [vm_compute; reflexivity|].
  apply overloadable_expanded_shape. vm_compute. reflexivity.
Defined.


Lemma length_concat_imap2 {A B} (K : nat -> A -> list B) (l : list A) :
  (forall i x, length (K i x) = 2) -> length (concat (imap K l)) = 2 * length l.
Proof.
  revert K. induction l as [|x l IH]; intros K HK; [reflexivity|].
  rewrite imap_cons. simpl. rewrite length_app, HK, (IH (K ∘ S)); [lia|].
  intros; apply HK.
Qed.

(** [overloadable_member!] never panics; it yields a compile error exactly
    when its input does not parse completely as a member header, and
    otherwise a trait declaration and a trait implementation per signature,
    in order. *)
Theorem overloadable_member_outcomes (input : TokenStream) :
  (forall msg, overloadable_member input <> Panic msg) /\
  (forall e, overloadable_member input = CompileError e <->
             exists r, parse_all parse_overloadable_associated input = PErr e r) /\
  (forall items, overloadable_member input = Expanded items ->
     exists a, parse_all parse_overloadable_associated input = POk a [] /\
       items = concat (imap (fun i f =>
                 [ITrait (trait_decl_of (oa_name a) (oa_struct_name a) (oa_vis a) i f);
                  ITraitImpl (trait_impl_of (oa_name a) (oa_struct_name a) i f)]) (oa_fns a)) /\
       length items = 2 * length (oa_fns a)).
Proof.
  unfold overloadable_member.
  destruct (parse_all parse_overloadable_associated input) as [a r|e r] eqn:E.
  - pose proof (parse_all_rest _ _ _ _ E) as ->. rewrite gen_trait_fn_decls_eq.
    split; [discriminate|]. split.
    + intros e. split; [discriminate|]. intros (r & H). discriminate H.
    + intros items H. inversion H; subst items. exists a. split; [reflexivity|].
      split; [reflexivity|]. apply length_concat_imap2. reflexivity.
  - split; [discriminate|]. split.
    + intros e'. split.
      * intros H. inversion H. eauto.
      * intros (r' & H). inversion H. reflexivity.
    + discriminate.
Qed.

(** In the member form, each signature yields a trait declaration and an
    implementation that agree: the implementation is for the declared
    trait and for the owner type, both carry the method name, the
    signature's generics and where clause and the same return type, and
    the implementation holds the body and the signature's attributes. *)
Theorem member_impl_matches_decl (fns : list ParsedFnDef) (name struct_name : Ident)
  (vis : Visibility) items :
  gen_trait_fn_decls fns name struct_name vis = Ok items ->
  forall i f, fns !! i = Some f ->
    exists td ti, In (ITrait td) items /\ In (ITraitImpl ti) items /\
      td_vis td = vis /\ ti_trait ti = td_name td /\ ti_self_ty ti = struct_name /\
      td_fn td = name /\ ti_fn ti = name /\
      td_gen td = gen f /\ ti_gen ti = gen f /\
      td_where td = w_clause f /\ ti_where ti = w_clause f /\
      td_ret td = ti_ret ti /\ ti_body ti = code f /\
      ti_attrs ti = map attr_of (meta f).
Proof.
  rewrite gen_trait_fn_decls_eq. intros H. inversion H; subst items. clear H.
  intros i f Hi. destruct (member_items_in fns name struct_name vis i f Hi) as [Htd Hti].
  eexists _, _. split; [exact Htd|]. split; [exact Hti|]. simpl. repeat split.
Qed.

Lemma member_impl_matches_decl_witness :
  exists td ti,
    In (ITrait td) (concat (imap (fun i f =>
        [ITrait (trait_decl_of (mkIdent 1 "f") (mkIdent 2 "Foo") VisInherited i f);
         ITraitImpl (trait_impl_of (mkIdent 1 "f") (mkIdent 2 "Foo") i f)])
        [sample_sig; sample_self_sig])) /\
    In (ITraitImpl ti) (concat (imap (fun i f =>
        [ITrait (trait_decl_of (mkIdent 1 "f") (mkIdent 2 "Foo") VisInherited i f);
         ITraitImpl (trait_impl_of (mkIdent 1 "f") (mkIdent 2 "Foo") i f)])
        [sample_sig; sample_self_sig])) /\
    td_vis td = VisInherited /\ ti_trait ti = td_name td /\ ti_self_ty ti = mkIdent 2 "Foo" /\
    td_fn td = mkIdent 1 "f" /\ ti_fn ti = mkIdent 1 "f" /\
    td_gen td = gen sample_self_sig /\ ti_gen ti = gen sample_self_sig /\
    td_where td = w_clause sample_self_sig /\ ti_where ti = w_clause sample_self_sig /\
    td_ret td = ti_ret ti /\ ti_body ti = code sample_self_sig /\
    ti_attrs ti = map attr_of (meta sample_self_sig).
Proof.
  apply (member_impl_matches_decl [sample_sig; sample_self_sig] (mkIdent 1 "f")
           (mkIdent 2 "Foo") VisInherited _ ltac:(rewrite gen_trait_fn_decls_eq; reflexivity)
           1 sample_self_sig).
  reflexivity.
Defined.

(** An empty signature list is accepted by both entry points: [overloadable!]
    then emits the marker struct alone (inherited visibility, spanned at the
    name), and [overloadable_member!] emits nothing. *)
Theorem empty_signature_lists (n s : string) (sp a o c1 c2 : span) :
  accept_as_ident n = true -> accept_as_ident s = true ->
  overloadable [TIdent sp n; TIdent a "as"] =
    Expanded [IStruct (mkMarkerStruct sp
                ["doc(hidden)"; "allow(non_camel_case_types)"; "allow(dead_code)"]
                VisInherited (mkIdent sp n))] /\
  overloadable_member [TIdent o s; TPunct c1 ":" Joint; TPunct c2 ":" Alone;
                       TIdent sp n; TIdent a "as"] = Expanded [].
Proof.
  intros Hn Hs. destruct (accept_as_ident_not_kw n Hn) as [Hnp Hnc].
  destruct (accept_as_ident_not_kw s Hs) as [Hsp Hsc]. split.
  - unfold overloadable, parse_all, parse_overloadable_global, pbind; simpl.
    rewrite Hnp, Hnc; simpl. rewrite Hn. reflexivity.
  - unfold overloadable_member, parse_all, parse_overloadable_associated, pbind; simpl.
    rewrite Hsp, Hsc; simpl. rewrite Hs; simpl. rewrite Hn. reflexivity.
Qed.

Lemma empty_signature_lists_witness :
  overloadable [TIdent 1 "f"; TIdent 2 "as"] =
    Expanded [IStruct (mkMarkerStruct 1
                ["doc(hidden)"; "allow(non_camel_case_types)"; "allow(dead_code)"]
                VisInherited (mkIdent 1 "f"))] /\
  overloadable_member [TIdent 3 "Foo"; TPunct 4 ":" Joint; TPunct 5 ":" Alone;
                       TIdent 1 "f"; TIdent 2 "as"] = Expanded [].
Proof.
  apply empty_signature_lists; reflexivity.
Defined.

(** ** Composition over signature lists *)

Lemma first_receiver_paren_app (fns1 fns2 : list ParsedFnDef) :
  first_receiver_paren (fns1 ++ fns2) =
  match first_receiver_paren fns1 with
  | Some sp => Some sp
  | None => first_receiver_paren fns2
  end.
Proof.
  induction fns1 as [|f fns1 IH]; [reflexivity|]. simpl. destruct (this f); auto.
Qed.

(** The free-form generator composes over concatenated signature lists: the
    items of [fns1 ++ fns2] are those of [fns1] followed by those of [fns2],
    and an error in [fns1] takes precedence over one in [fns2]. *)
Theorem gen_fn_decls_app (fns1 fns2 : list ParsedFnDef) (name : Ident) :
  gen_fn_decls (fns1 ++ fns2) name =
  match gen_fn_decls fns1 name, gen_fn_decls fns2 name with
  | Ok a, Ok b => Ok (a ++ b)%list
  | Err e, _ => Err e
  | Ok _, Err e => Err e
  end.
Proof.
  unfold gen_fn_decls. rewrite !collect_gen_fn_decl, first_receiver_paren_app.
  destruct (first_receiver_paren fns1); [reflexivity|].
  destruct (first_receiver_paren fns2); [reflexivity|].
  rewrite map_app, concat_app. reflexivity.
Qed.

Lemma map_seq_offset {B} (g : nat -> B) (k n : nat) :
  map (fun i => g (k + i)) (seq 0 n) = map g (seq k n).
Proof.
  revert k. induction n as [|n IH]; intros k; [reflexivity|].
  simpl. rewrite Nat.add_0_r. f_equal.
  rewrite <- seq_shift, map_map, <- IH.
  apply map_ext. intros i. f_equal. lia.
Qed.

(** Appending signatures to a member-form list keeps the items of the
    earlier signatures unchanged and numbers the new traits on from the
    length of the earlier list: their names are [<Owner>Trait<k>] for
    [k = length fns1, ..., length fns1 + length fns2 - 1]. *)
Theorem gen_trait_fn_decls_app (fns1 fns2 : list ParsedFnDef) (name struct_name : Ident)
  (vis : Visibility) :
  exists items1 items2,
    gen_trait_fn_decls fns1 name struct_name vis = Ok items1 /\
    gen_trait_fn_decls (fns1 ++ fns2) name struct_name vis = Ok (items1 ++ items2)%list /\
    items2 = concat (imap (fun i f =>
               [ITrait (trait_decl_of name struct_name vis (length fns1 + i) f);
                ITraitImpl (trait_impl_of name struct_name (length fns1 + i) f)]) fns2) /\
    map id_name (trait_names items2) =
      map (fun i => id_name struct_name ++ "Trait" ++ pretty i)
          (seq (length fns1) (length fns2)).
Proof.
  rewrite !gen_trait_fn_decls_eq. eexists _, _.
  split; [reflexivity|]. split; [rewrite imap_app, concat_app; reflexivity|].
  split; [reflexivity|].
  rewrite (trait_names_concat_imap _
             (fun i f => trait_decl_of name struct_name vis (length fns1 + i) f)
             (fun i f => trait_impl_of name struct_name (length fns1 + i) f));
    [|reflexivity].
  rewrite (map_imap_index _ id_name
     (fun i => id_name struct_name ++ "Trait" ++ pretty (length fns1 + i))); [|reflexivity].
  apply (map_seq_offset (fun i => id_name struct_name ++ "Trait" ++ pretty i)).
Qed.
